(** * Fix-Learn: the study queue and the profile merge of [App.tsx]

    A shallow embedding of the state-changing handlers of the flashcard
    application ([src/fix-learn/App.tsx], first component version) and of the
    records of [src/fix-learn/types.ts].

    React state is modelled by explicit state passing: a handler closes over
    the state of the render it belongs to and returns the state produced by
    its setter calls.  JavaScript arrays are lists; [find] and [findIndex]
    are the two components of stdpp's [list_find]; [arr.splice(i, 1)] is
    [delete i]; [arr[i] = x] on an index that [findIndex] returned is
    [<[i:=x]>]. *)

From Stdlib Require Import Ascii QArith Qround Qabs Qpower Lqa.
From stdpp Require Import base tactics option list sets strings gmap.

Set Default Proof Using "Type".
Local Open Scope nat_scope.

(** ** Records of [types.ts] *)

Module Types.

Record User := mkUser {
  u_id : string;
  u_name : string;
  u_email : string;
  u_avatar : option string
}.

Inductive CardStatus := StatusNew | StatusKnown | StatusUnknown | StatusHalfKnown.

Record Flashcard := mkFlashcard {
  fc_id : string;
  fc_term : string;
  fc_definition : string;
  fc_exampleSentence : string;
  fc_status : CardStatus;
  fc_nextReview : option Z
}.

Record Deck := mkDeck {
  d_id : string;
  d_authorId : string;
  d_name : string;
  d_cards : list Flashcard;
  d_createdAt : Z
}.

Record Course := mkCourse {
  c_id : string;
  c_name : string;
  c_description : string;
  c_authorId : string;
  c_memberIds : list string;
  c_deckIds : list string;
  c_createdAt : Z
}.

Record Folder := mkFolder {
  f_id : string;
  f_name : string;
  f_authorId : string;
  f_deckIds : list string;
  f_createdAt : Z
}.

Inductive HistoryAction := Created | Imported.

Record HistoryEntry := mkHistoryEntry {
  h_id : string;
  h_userId : string;
  h_deckId : string;
  h_deckName : string;
  h_action : HistoryAction;
  h_timestamp : Z
}.

Inductive SwipeDirection := LEFT | RIGHT | UP.

#[export] Instance SwipeDirection_eq_dec : EqDecision SwipeDirection.
Proof. solve_decision. Defined.

(** Every stored entity is addressed by its [id] field. *)
Class HasId (A : Type) := idOf : A → string.
#[export] Instance Deck_HasId : HasId Deck := d_id.
#[export] Instance Course_HasId : HasId Course := c_id.
#[export] Instance Folder_HasId : HasId Folder := f_id.
#[export] Instance HistoryEntry_HasId : HasId HistoryEntry := h_id.

End Types.
Export Types.

(** ** Array methods *)

Module JsArray.

(** [arr.find(p)]: the first element that satisfies [p], if any. *)
Definition find {A} (P : A → Prop) `{!∀ x, Decision (P x)} (l : list A) : option A :=
  snd <$> list_find P l.

(** [arr.findIndex(p)]: the first position whose element satisfies [p];
    [None] stands for [-1]. *)
Definition findIndex {A} (P : A → Prop) `{!∀ x, Decision (P x)} (l : list A) : option nat :=
  fst <$> list_find P l.

End JsArray.
Export JsArray.

(** ** The study session ([StudySession] in [App.tsx]) *)

Module Study.

(** [type StudyCard = Flashcard & { isRetry?: boolean }] *)
Record StudyCard := mkStudyCard {
  sc_card : Flashcard;
  sc_isRetry : option bool
}.

Definition sc_id (c : StudyCard) : string := fc_id (sc_card c).

(** [{ ...currentCard, isRetry: true }] *)
Definition markRetry (c : StudyCard) : StudyCard :=
  {| sc_card := sc_card c; sc_isRetry := Some true |}.

(** An element of [sessionHistory]:
    [{ card: StudyCard, action: SwipeDirection, insertedAt?: number }]. *)
Record Transcript := mkTranscript {
  t_card : StudyCard;
  t_action : SwipeDirection;
  t_insertedAt : option nat
}.

(** The three pieces of React state the swipe and undo handlers write.
    [correctCount] starts at 0 and is only changed by [prev + 1] and
    [Math.max(0, prev - 1)]: a natural number. *)
Record Session := mkSession {
  studyQueue : list StudyCard;
  sessionHistory : list Transcript;
  correctCount : nat
}.

(** *** Numbers

    A finite JavaScript number is an IEEE 754 binary64 value: a rational
    [m * 2^e] with [|m| < 2^53] and [-1074 <= e <= 971]. *)
Definition is_binary64 (x : Q) : Prop :=
  ∃ m e : Z, (Z.abs m < 2 ^ 53)%Z ∧ (-1074 ≤ e ≤ 971)%Z ∧ (x == inject_Z m * 2 ^ e)%Q.

(** [floor (log2 x)] of a positive rational: the difference of the bit
    lengths of numerator and denominator, or one less. *)
Definition Qlog2 (x : Q) : Z :=
  let k := (Z.log2 (Qnum x) - Z.log2 (Zpos (Qden x)))%Z in
  if Qle_bool (2 ^ k) x then k else (k - 1)%Z.

(** The nearest integer, the even one of two that are equally near. *)
Definition round_half_even (y : Q) : Z :=
  let f := Qfloor y in
  match (y - inject_Z f ?= 1 # 2)%Q with
  | Lt => f
  | Gt => (f + 1)%Z
  | Eq => if Z.even f then f else (f + 1)%Z
  end.

(** The binary64 value nearest to the real number [x], ties to even: [x] is
    rounded to a multiple of [2^e], where [e] leaves 53 significant bits
    and is at least [-1074] (the subnormal range).  Results beyond the
    largest binary64 value ([Infinity]) and the sign of zero are left out;
    the numbers rounded below are smaller than 16. *)
Definition binary64_round (x : Q) : Q :=
  if Qeq_bool x 0 then 0%Q
  else
    let e := Z.max (Qlog2 (Qabs x) - 52) (-1074) in
    (inject_Z (round_half_even (x / 2 ^ e)) * 2 ^ e)%Q.

(** [x * y] on numbers: the exact product, rounded. *)
Definition Math_mul (x y : Q) : Q := binary64_round (x * y).

(** [Math.floor(x)] *)
Definition Math_floor (x : Q) : Z := Qfloor x.

(** [5 + Math.floor(Math.random() * 11)], where [rnd] is the value that
    this call of [Math.random()] returns, a binary64 number with
    [0 <= rnd < 1].  The floor is an integer below 2^53, so the sum with 5
    is exact. *)
Definition leftOffset (rnd : Q) : nat :=
  5 + Z.to_nat (Math_floor (Math_mul rnd 11)).

(** [q.splice(i, 0, x)] for [0 <= i <= q.length]. *)
Definition splice_in (i : nat) (x : StudyCard) (q : list StudyCard) : list StudyCard :=
  take i q ++ x :: drop i q.

(** [handleCardSwipe], lines 914-940. *)
Definition handleCardSwipe (dir : SwipeDirection) (rnd : Q) (s : Session) : Session :=
  match studyQueue s with
  | [] => s
  | currentCard :: remainingQueue =>
      let newQueue := remainingQueue in
      match dir with
      | LEFT =>
          let retryCard := markRetry currentCard in
          let offset := leftOffset rnd in
          let insertedAt := Nat.min (length newQueue) offset in
          {| studyQueue := splice_in insertedAt retryCard newQueue;
             sessionHistory := sessionHistory s ++ [mkTranscript currentCard dir (Some insertedAt)];
             correctCount := correctCount s |}
      | UP =>
          let retryCard := markRetry currentCard in
          let offset := 20 in
          let insertedAt := Nat.min (length newQueue) offset in
          {| studyQueue := splice_in insertedAt retryCard newQueue;
             sessionHistory := sessionHistory s ++ [mkTranscript currentCard dir (Some insertedAt)];
             correctCount := correctCount s |}
      | RIGHT =>
          {| studyQueue := newQueue;
             sessionHistory := sessionHistory s ++ [mkTranscript currentCard dir None];
             correctCount := correctCount s + 1 |}
      end
  end.

(** [handleUndo], lines 942-962. *)
Definition handleUndo (s : Session) : Session :=
  match last (sessionHistory s) with
  | None => s
  | Some lastAction =>
      let newHistory := take (length (sessionHistory s) - 1) (sessionHistory s) in
      let count :=
        if decide (t_action lastAction = RIGHT)
        then Nat.max 0 (correctCount s - 1)
        else correctCount s in
      let newQueue :=
        match t_insertedAt lastAction with
        | Some _ =>
            match findIndex (λ c, sc_id c = sc_id (t_card lastAction)) (studyQueue s) with
            | Some indexToRemove => delete indexToRemove (studyQueue s)
            | None => studyQueue s
            end
        | None => studyQueue s
        end in
      {| studyQueue := t_card lastAction :: newQueue;
         sessionHistory := newHistory;
         correctCount := count |}
  end.

(** What the component renders, lines 964-988. *)
Inductive Screen := Finished | Loading | Studying.

Definition render (s : Session) : Screen :=
  if bool_decide (length (studyQueue s) = 0) && bool_decide (0 < correctCount s) then Finished
  else if bool_decide (length (studyQueue s) = 0) then Loading
  else Studying.

(** A run of swipes, each with the random number its handler call draws. *)
Definition run_swipes (sw : list (SwipeDirection * Q)) (s : Session) : Session :=
  foldl (λ st e, handleCardSwipe e.1 e.2 st) s sw.

(** Every swipe of the run finds a card to act on. *)
Fixpoint swipes_enabled (sw : list (SwipeDirection * Q)) (s : Session) : Prop :=
  match sw with
  | [] => True
  | e :: rest => studyQueue s ≠ [] ∧ swipes_enabled rest (handleCardSwipe e.1 e.2 s)
  end.

Definition undo_times (n : nat) (s : Session) : Session := Nat.iter n handleUndo s.

(** No two cards of the queue share an id. *)
Definition distinct_ids (q : list StudyCard) : Prop := NoDup (sc_id <$> q).

End Study.

(** ** The entity store and the import handlers ([App] in [App.tsx]) *)

Module Store.

(** The React state of [App] that the handlers below read or write. *)
Record AppState := mkAppState {
  currentUser : option User;
  decks : list Deck;
  courses : list Course;
  folders : list Folder;
  history : list HistoryEntry;
  view : string;
  activeDeckId : option string
}.

(** What the handler tells the user ([alert]), if anything. *)
Inductive Notice :=
  | Silent
  | ProfileSynced      (* 'Profil erfolgreich synchronisiert!' *)
  | CourseImported     (* 'Kurs ... erfolgreich importiert!' *)
  | InvalidFile        (* 'Ungueltige Datei.' *)
  | ImportError        (* 'Fehler beim Importieren.' *)
  | IsCourseFile       (* 'Dies ist eine Kurs-Datei. ...' *)
  | DeckImported.      (* 'Import erfolgreich!' *)

(** *** [mergeData], lines 382-415 *)

(** [if (!merged.find(existing => existing.id === d.id)) merged.push(d)] *)
Definition pushIfAbsent {A} `{HasId A} (merged : list A) (d : A) : list A :=
  match find (λ existing, idOf existing = idOf d) merged with
  | Some _ => merged
  | None => merged ++ [d]
  end.

(** [const merged = [...local]; incoming.forEach(...)], the loop used for
    decks, folders and history. *)
Definition mergeAdditive {A} `{HasId A} (local incoming : list A) : list A :=
  foldl pushIfAbsent local incoming.

(** The body of the loop over [newCourses]. *)
Definition pushOrReplace (mergedCourses : list Course) (c : Course) : list Course :=
  match findIndex (λ existing, idOf existing = idOf c) mergedCourses with
  | None => mergedCourses ++ [c]
  | Some existingIndex => <[existingIndex := c]> mergedCourses
  end.

Definition mergeCourses (local incoming : list Course) : list Course :=
  foldl pushOrReplace local incoming.

Definition mergeData (newDecks : list Deck) (newCourses : list Course)
    (newHistory : list HistoryEntry) (newFolders : list Folder)
    (st : AppState) : AppState :=
  {| currentUser := currentUser st;
     decks := mergeAdditive (decks st) newDecks;
     courses := mergeCourses (courses st) newCourses;
     folders := mergeAdditive (folders st) newFolders;
     history := mergeAdditive (history st) newHistory;
     view := view st;
     activeDeckId := activeDeckId st |}.

(** *** [processProfileFile], lines 337-380 *)

(** [data.folders]: a falsy value (the field is absent, [null], ...), an
    array, or another truthy value. *)
Inductive FoldersField :=
  | NoFolders
  | FolderArray (l : list Folder)
  | NotAnArray.

(** The parsed JSON of an import file, with the fields the handler probes.
    [data_decks], [data_courses] and [data_history] are [Some] exactly when
    the field holds an array ([Array.isArray(data.decks)] for the decks);
    [data_type] is the [type] field when it holds a string, any other
    truthy value being taken as a string other than ['course_share'].  The
    elements of an array, the user and the course are records of their
    types. *)
Record FileData := mkFileData {
  data_user : option User;
  data_type : option string;
  data_decks : option (list Deck);
  data_courses : option (list Course);
  data_history : option (list HistoryEntry);
  data_folders : FoldersField;
  data_course : option Course
}.


(** JavaScript truthiness of an optional string. *)
Definition truthy (s : option string) : bool :=
  match s with
  | None => false
  | Some v => negb (bool_decide (v = ""%string))
  end.

(** [!c.memberIds.includes(u.id) && c.authorId !== u.id] *)
Definition mustJoin (u : User) (c : Course) : bool :=
  negb (bool_decide (u_id u ∈ c_memberIds c)) && negb (bool_decide (c_authorId c = u_id u)).

(** [courseToImport.memberIds.push(currentUser.id)] *)
Definition pushMember (c : Course) (uid : string) : Course :=
  {| c_id := c_id c; c_name := c_name c; c_description := c_description c;
     c_authorId := c_authorId c; c_memberIds := c_memberIds c ++ [uid];
     c_deckIds := c_deckIds c; c_createdAt := c_createdAt c |}.

Definition restoreUser (u : User) (st : AppState) : AppState :=
  {| currentUser := Some u; decks := decks st; courses := courses st;
     folders := folders st; history := history st;
     view := "dashboard"%string; activeDeckId := activeDeckId st |}.

(** [data.folders || []], when it is an array. *)
Definition folderList (f : FoldersField) : list Folder :=
  match f with
  | FolderArray l => l
  | NoFolders | NotAnArray => []
  end.

(** [mergeData(data.decks, data.courses, data.history, data.folders || [])]
    on the fields of a full-profile file.  [mergeData] merges and sets the
    decks, the courses, the folders and the history, in this order;
    [forEach] on a value that is not an array throws, and by then the
    setters of the collections before it have run.  The flag tells whether
    the call returned. *)
Definition mergeFields (newDecks : list Deck) (newCourses : option (list Course))
    (newHistory : option (list HistoryEntry)) (newFolders : FoldersField)
    (st : AppState) : AppState * bool :=
  match newCourses with
  | None => (mergeData newDecks [] [] [] st, false)
  | Some cs =>
      match newFolders with
      | NotAnArray => (mergeData newDecks cs [] [] st, false)
      | NoFolders | FolderArray _ =>
          match newHistory with
          | None => (mergeData newDecks cs [] (folderList newFolders) st, false)
          | Some hs => (mergeData newDecks cs hs (folderList newFolders) st, true)
          end
      end
  end.

(** The [try] block of [processProfileFile] on the parsed file, with the
    [catch] for what [mergeData] throws; [confirm] is the answer to
    [window.confirm]. *)
Definition processProfileFile (data : FileData) (confirm : bool) (st : AppState)
    : AppState * Notice :=
  match data_user data, data_decks data, truthy (data_type data) with
  | Some user, Some dataDecks, false =>
      (* CASE 1: FULL PROFILE BACKUP *)
      let isRestore := negb (bool_decide (is_Some (currentUser st))) in
      if confirm then
        let merged := mergeFields dataDecks (data_courses data) (data_history data)
                        (data_folders data) st in
        if merged.2 then
          if isRestore then (restoreUser user merged.1, Silent)
          else (merged.1, ProfileSynced)
        else (merged.1, ImportError)
      else (st, Silent)
  | _, _, _ =>
      match bool_decide (data_type data = Some "course_share"%string),
            data_course data, data_decks data with
      | true, Some course, Some dataDecks =>
          (* CASE 2: SHARED COURSE *)
          if confirm then
            let courseToImport :=
              match currentUser st with
              | Some u => if mustJoin u course then pushMember course (u_id u) else course
              | None => course
              end in
            (mergeData dataDecks [courseToImport] [] [] st, CourseImported)
          else (st, Silent)
      | _, _, _ => (st, InvalidFile)
      end
  end.


(** *** [handleImportDeck], lines 430-454, with [addToHistory], lines 106-117 *)

Definition addToHistory (deckName deckId : string) (action : HistoryAction)
    (uuid : string) (now : Z) (st : AppState) : AppState :=
  match currentUser st with
  | None => st
  | Some u =>
      let newEntry :=
        {| h_id := uuid; h_userId := u_id u; h_deckName := deckName;
           h_deckId := deckId; h_timestamp := now; h_action := action |} in
      {| currentUser := currentUser st; decks := decks st; courses := courses st;
         folders := folders st; history := newEntry :: history st;
         view := view st; activeDeckId := activeDeckId st |}
  end.

Definition withId (d : Deck) (i : string) : Deck :=
  {| d_id := i; d_authorId := d_authorId d; d_name := d_name d;
     d_cards := d_cards d; d_createdAt := d_createdAt d |}.

Definition withAuthor (d : Deck) (a : string) : Deck :=
  {| d_id := d_id d; d_authorId := a; d_name := d_name d;
     d_cards := d_cards d; d_createdAt := d_createdAt d |}.

Definition appendDeck (d : Deck) (st : AppState) : AppState :=
  {| currentUser := currentUser st; decks := decks st ++ [d]; courses := courses st;
     folders := folders st; history := history st;
     view := view st; activeDeckId := activeDeckId st |}.

(** [importedDeck] is the parsed file and [fileType] its [type] field;
    [deckUuid] and [entryUuid] are the values the two calls of
    [crypto.randomUUID()] return, [now] is [Date.now()]. *)
Definition handleImportDeck (importedDeck : Deck) (fileType : option string)
    (deckUuid entryUuid : string) (now : Z) (st : AppState) : AppState * Notice :=
  if truthy (Some (d_id importedDeck)) && truthy (Some (d_name importedDeck)) then
    if bool_decide (fileType = Some "course_share"%string) then (st, IsCourseFile)
    else
      let importedDeck1 :=
        if bool_decide (Exists (λ d, d_id d = d_id importedDeck) (decks st))
        then withId importedDeck deckUuid else importedDeck in
      let importedDeck2 :=
        match currentUser st with
        | Some u => withAuthor importedDeck1 (u_id u)
        | None => importedDeck1
        end in
      (addToHistory (d_name importedDeck2) (d_id importedDeck2) Imported entryUuid now
         (appendDeck importedDeck2 st), DeckImported)
  else (st, Silent).

(** *** [handleDeleteDeck], lines 138-154 *)

Definition dropDeckFromCourse (deckId : string) (c : Course) : Course :=
  {| c_id := c_id c; c_name := c_name c; c_description := c_description c;
     c_authorId := c_authorId c; c_memberIds := c_memberIds c;
     c_deckIds := filter (λ id, id ≠ deckId) (c_deckIds c);
     c_createdAt := c_createdAt c |}.

Definition dropDeckFromFolder (deckId : string) (f : Folder) : Folder :=
  {| f_id := f_id f; f_name := f_name f; f_authorId := f_authorId f;
     f_deckIds := filter (λ id, id ≠ deckId) (f_deckIds f);
     f_createdAt := f_createdAt f |}.

Definition handleDeleteDeck (deckId : string) (st : AppState) : AppState :=
  let isActive := bool_decide (activeDeckId st = Some deckId) in
  {| currentUser := currentUser st;
     decks := filter (λ d, d_id d ≠ deckId) (decks st);
     courses := dropDeckFromCourse deckId <$> courses st;
     folders := dropDeckFromFolder deckId <$> folders st;
     history := history st;
     view := if isActive then "dashboard"%string else view st;
     activeDeckId := if isActive then None else activeDeckId st |}.

End Store.

(** ** Concrete data used by the examples *)

Module Samples.
Import Study Store.

Definition card (i term : string) : StudyCard :=
  {| sc_card := {| fc_id := i; fc_term := term; fc_definition := "";
                   fc_exampleSentence := ""; fc_status := StatusNew;
                   fc_nextReview := None |};
     sc_isRetry := None |}.

(** A session over three cards with pairwise distinct ids. *)
Definition session_abc : Session :=
  {| studyQueue := [card "a" "uno"; card "b" "due"; card "c" "tre"];
     sessionHistory := []; correctCount := 0 |}.

(** A session over a deck in which two cards carry the id ["a"]. *)
Definition session_shared_id : Session :=
  {| studyQueue := [card "a" "uno"; card "b" "due"; card "a" "tre"];
     sessionHistory := []; correctCount := 0 |}.

(** A session whose last card was swiped right. *)
Definition session_done : Session :=
  {| studyQueue := [];
     sessionHistory := [mkTranscript (card "a" "uno") RIGHT None];
     correctCount := 1 |}.

Definition session_empty : Session :=
  {| studyQueue := []; sessionHistory := []; correctCount := 0 |}.

(** The binary64 number nearest to 3/11, [0.2727272727272727]: it lies
    below 3/11, and its product with 11 rounds to 3. *)
Definition draw_near_3_11 : Q := 4913017775313268 # 18014398509481984.

(** A session over twelve cards. *)
Definition session_twelve : Session :=
  {| studyQueue := [card "1" "uno"; card "2" "due"; card "3" "tre"; card "4" "quattro";
                    card "5" "cinque"; card "6" "sei"; card "7" "sette"; card "8" "otto";
                    card "9" "nove"; card "10" "dieci"; card "11" "undici";
                    card "12" "dodici"];
     sessionHistory := []; correctCount := 0 |}.

Definition user_anna : User :=
  {| u_id := "anna"; u_name := "Anna"; u_email := "anna@example.org"; u_avatar := None |}.

Definition deck_mine : Deck :=
  {| d_id := "d1"; d_authorId := "anna"; d_name := "Mine"; d_cards := []; d_createdAt := 1 |}.
Definition deck_other : Deck :=
  {| d_id := "d2"; d_authorId := "anna"; d_name := "Other"; d_cards := []; d_createdAt := 2 |}.
(** An incoming deck with the id of [deck_mine]. *)
Definition deck_theirs : Deck :=
  {| d_id := "d1"; d_authorId := "ben"; d_name := "Theirs"; d_cards := []; d_createdAt := 3 |}.

Definition course_local : Course :=
  {| c_id := "c1"; c_name := "Local"; c_description := ""; c_authorId := "anna";
     c_memberIds := []; c_deckIds := ["d1"; "d2"]%string; c_createdAt := 4 |}.
(** An incoming course with the id of [course_local], written by [ben]. *)
Definition course_incoming : Course :=
  {| c_id := "c1"; c_name := "Incoming"; c_description := ""; c_authorId := "ben";
     c_memberIds := []; c_deckIds := ["d1"]%string; c_createdAt := 5 |}.

Definition folder_local : Folder :=
  {| f_id := "f1"; f_name := "Folder"; f_authorId := "anna";
     f_deckIds := ["d2"; "d1"]%string; f_createdAt := 6 |}.

Definition store_anna : AppState :=
  {| currentUser := Some user_anna;
     decks := [deck_mine; deck_other];
     courses := [course_local];
     folders := [folder_local];
     history := [];
     view := "dashboard";
     activeDeckId := None |}.

Definition share_file : FileData :=
  {| data_user := None; data_type := Some "course_share"%string;
     data_decks := Some [deck_theirs]; data_courses := None; data_history := None;
     data_folders := NoFolders; data_course := Some course_incoming |}.

End Samples.

(** ** The other store handlers of [App] *)

Module StoreOps.
Import Store.

(** *** Derived state, lines 71-79 *)

Definition userDecks (st : AppState) : list Deck :=
  match currentUser st with
  | Some u => filter (λ d, d_authorId d = u_id u) (decks st)
  | None => []
  end.

Definition userCourses (st : AppState) : list Course :=
  match currentUser st with
  | Some u => filter (λ c, c_authorId c = u_id u ∨ u_id u ∈ c_memberIds c) (courses st)
  | None => []
  end.

Definition userFolders (st : AppState) : list Folder :=
  match currentUser st with
  | Some u => filter (λ f, f_authorId f = u_id u) (folders st)
  | None => []
  end.

Definition userHistory (st : AppState) : list HistoryEntry :=
  match currentUser st with
  | Some u => filter (λ h, h_userId h = u_id u) (history st)
  | None => []
  end.

(** *** Setters *)

Definition setDecks (ds : list Deck) (st : AppState) : AppState :=
  {| currentUser := currentUser st; decks := ds; courses := courses st;
     folders := folders st; history := history st;
     view := view st; activeDeckId := activeDeckId st |}.

Definition setCourses (cs : list Course) (st : AppState) : AppState :=
  {| currentUser := currentUser st; decks := decks st; courses := cs;
     folders := folders st; history := history st;
     view := view st; activeDeckId := activeDeckId st |}.

Definition setFolders (fs : list Folder) (st : AppState) : AppState :=
  {| currentUser := currentUser st; decks := decks st; courses := courses st;
     folders := fs; history := history st;
     view := view st; activeDeckId := activeDeckId st |}.

Definition setView (v : string) (st : AppState) : AppState :=
  {| currentUser := currentUser st; decks := decks st; courses := courses st;
     folders := folders st; history := history st;
     view := v; activeDeckId := activeDeckId st |}.

(** *** [handleCreateDeck], lines 129-136 *)

(** [uuid] and [now] are what [addToHistory] draws from
    [crypto.randomUUID()] and [Date.now()]. *)
Definition handleCreateDeck (newDeck : Deck) (uuid : string) (now : Z)
    (st : AppState) : AppState :=
  let newDeck1 :=
    match currentUser st with
    | Some u => withAuthor newDeck (u_id u)
    | None => newDeck
    end in
  setView "dashboard"
    (addToHistory (d_name newDeck1) (d_id newDeck1) Created uuid now
       (appendDeck newDeck1 st)).

(** *** [handleRenameDeck], lines 156-158 *)

Definition withName (d : Deck) (n : string) : Deck :=
  {| d_id := d_id d; d_authorId := d_authorId d; d_name := n;
     d_cards := d_cards d; d_createdAt := d_createdAt d |}.

Definition handleRenameDeck (deckId newName : string) (st : AppState) : AppState :=
  setDecks ((λ d, if decide (d_id d = deckId) then withName d newName else d) <$> decks st) st.

(** *** [handleUpdateCard] and [handleDeleteCard], lines 161-184 *)

Definition withCards (d : Deck) (cs : list Flashcard) : Deck :=
  {| d_id := d_id d; d_authorId := d_authorId d; d_name := d_name d;
     d_cards := cs; d_createdAt := d_createdAt d |}.

Definition handleUpdateCard (updatedCard : Flashcard) (st : AppState) : AppState :=
  setDecks
    ((λ d,
        if bool_decide (Exists (λ c, fc_id c = fc_id updatedCard) (d_cards d))
        then withCards d
               ((λ c, if decide (fc_id c = fc_id updatedCard) then updatedCard else c)
                  <$> d_cards d)
        else d) <$> decks st) st.

Definition handleDeleteCard (cardId : string) (st : AppState) : AppState :=
  setDecks
    ((λ d,
        if bool_decide (Exists (λ c, fc_id c = cardId) (d_cards d))
        then withCards d (filter (λ c, fc_id c ≠ cardId) (d_cards d))
        else d) <$> decks st) st.

(** *** [handleDeleteFolder] and [handleDeleteCourse], lines 216-232 *)

(** [confirm] is the answer to [window.confirm]. *)
Definition handleDeleteFolder (folderId : string) (confirm : bool)
    (st : AppState) : AppState :=
  if confirm then setFolders (filter (λ f, f_id f ≠ folderId) (folders st)) st else st.

(** [App] with the id of the course that is open ([activeCourseId]). *)
Record CourseNav := mkCourseNav {
  nav_app : AppState;
  activeCourseId : option string
}.

Definition handleDeleteCourse (courseId : string) (confirm : bool)
    (nav : CourseNav) : CourseNav :=
  if confirm then
    let st1 := setCourses (filter (λ c, c_id c ≠ courseId) (courses (nav_app nav)))
                 (nav_app nav) in
    if bool_decide (activeCourseId nav = Some courseId)
    then {| nav_app := setView "dashboard" st1; activeCourseId := None |}
    else {| nav_app := st1; activeCourseId := activeCourseId nav |}
  else nav.

(** *** [handleAddMemberToCourse], lines 234-242 *)

(** The two string methods on names of ASCII characters. *)

(** [s.toLowerCase()] *)
Definition lowerChar (c : ascii) : ascii :=
  let n := nat_of_ascii c in
  if bool_decide (65 ≤ n ≤ 90) then ascii_of_nat (n + 32) else c.

Fixpoint toLowerCase (s : string) : string :=
  match s with
  | EmptyString => EmptyString
  | String c rest => String (lowerChar c) (toLowerCase rest)
  end.

(** The class [\s]: tab, line feed, vertical tab, form feed, carriage
    return and space. *)
Definition isWhitespace (c : ascii) : bool :=
  let n := nat_of_ascii c in
  bool_decide (9 ≤ n ≤ 13) || bool_decide (n = 32).

(** [s.replace(/\s+/g, '_')]: [inRun] tells that the character before [s]
    was whitespace, so that the underscore of this run is already written. *)
Fixpoint replaceRuns (inRun : bool) (s : string) : string :=
  match s with
  | EmptyString => EmptyString
  | String c rest =>
      if isWhitespace c
      then if inRun then replaceRuns true rest else String "_"%char (replaceRuns true rest)
      else String c (replaceRuns false rest)
  end.

Definition memberIdOf (name : string) : string := replaceRuns false (toLowerCase name).

(** The user id that the login screen derives from what was typed,
    [identifier.toLowerCase().replace(/[^a-z0-9]/g, '')]
    ([LoginScreen.tsx], lines 32 and 43). *)
Definition isLowerAlnum (c : ascii) : bool :=
  let n := nat_of_ascii c in
  bool_decide (97 ≤ n ≤ 122) || bool_decide (48 ≤ n ≤ 57).

Fixpoint keepLowerAlnum (s : string) : string :=
  match s with
  | EmptyString => EmptyString
  | String c rest =>
      if isLowerAlnum c then String c (keepLowerAlnum rest) else keepLowerAlnum rest
  end.

Definition loginIdOf (identifier : string) : string :=
  keepLowerAlnum (toLowerCase identifier).

(** A character that neither of the two methods of [memberIdOf] changes. *)
Definition plain (c : ascii) : Prop :=
  isWhitespace c = false ∧ ¬ (65 ≤ nat_of_ascii c ≤ 90).

(** The strings on which the two models above are exact. *)
Definition ascii_only (s : string) : Prop :=
  Forall (λ c, nat_of_ascii c < 128) (String.list_ascii_of_string s).

(** [name] is what was typed into the prompt; the member id is the one the
    code derives as long as [name] is [ascii_only]. *)
Definition handleAddMemberToCourse (courseId name : string) (st : AppState) : AppState :=
  let memberId := memberIdOf name in
  setCourses
    ((λ c,
        if bool_decide (c_id c = courseId) && negb (bool_decide (memberId ∈ c_memberIds c))
        then pushMember c memberId
        else c) <$> courses st) st.

(** *** Decks of a course or folder, lines 244-277 *)

Definition withCourseDecks (c : Course) (ids : list string) : Course :=
  {| c_id := c_id c; c_name := c_name c; c_description := c_description c;
     c_authorId := c_authorId c; c_memberIds := c_memberIds c;
     c_deckIds := ids; c_createdAt := c_createdAt c |}.

Definition withFolderDecks (f : Folder) (ids : list string) : Folder :=
  {| f_id := f_id f; f_name := f_name f; f_authorId := f_authorId f;
     f_deckIds := ids; f_createdAt := f_createdAt f |}.

Definition handleRemoveDeckFromCourse (courseId deckId : string) (st : AppState) : AppState :=
  setCourses
    ((λ c,
        if bool_decide (c_id c = courseId)
        then withCourseDecks c (filter (λ id, id ≠ deckId) (c_deckIds c))
        else c) <$> courses st) st.

Definition handleAddDeckToCourse (courseId deckId : string) (st : AppState) : AppState :=
  setCourses
    ((λ c,
        if bool_decide (c_id c = courseId) && negb (bool_decide (deckId ∈ c_deckIds c))
        then withCourseDecks c (c_deckIds c ++ [deckId])
        else c) <$> courses st) st.

(** [if(!activeDeckId) return;] *)
Definition handleAddToCourse (courseId : string) (st : AppState) : AppState :=
  match activeDeckId st with
  | Some deckId => if truthy (Some deckId) then handleAddDeckToCourse courseId deckId st else st
  | None => st
  end.

Definition handleAddToFolder (folderId : string) (st : AppState) : AppState :=
  match activeDeckId st with
  | Some deckId =>
      if truthy (Some deckId) then
        setFolders
          ((λ f,
              if bool_decide (f_id f = folderId) && negb (bool_decide (deckId ∈ f_deckIds f))
              then withFolderDecks f (f_deckIds f ++ [deckId])
              else f) <$> folders st) st
      else st
  | None => st
  end.

(** *** Export, lines 297-322 *)

(** The bundle that [exportFullProfile] hands to [downloadJson]; nothing is
    exported without a user. *)
Definition exportFullProfile (st : AppState) : option FileData :=
  match currentUser st with
  | None => None
  | Some u =>
      Some {| data_user := Some u; data_type := None;
              data_decks := Some (userDecks st); data_courses := Some (userCourses st);
              data_history := Some (userHistory st);
              data_folders := FolderArray (userFolders st);
              data_course := None |}
  end.

(** The bundle of [handleExportCourse]. *)
Definition handleExportCourse (course : Course) (st : AppState) : FileData :=
  let courseDecks := filter (λ d, d_id d ∈ c_deckIds course) (decks st) in
  {| data_user := None; data_type := Some "course_share"%string;
     data_decks := Some courseDecks; data_courses := None; data_history := None;
     data_folders := NoFolders; data_course := Some course |}.

(** Every deck id that a course or a folder lists names a deck. *)
Definition references_resolve (st : AppState) : Prop :=
  (∀ c, c ∈ courses st → ∀ i, i ∈ c_deckIds c → i ∈ d_id <$> decks st) ∧
  (∀ f, f ∈ folders st → ∀ i, i ∈ f_deckIds f → i ∈ d_id <$> decks st).

(** A store nobody has used yet. *)
Definition emptyStore : AppState :=
  {| currentUser := None; decks := []; courses := []; folders := []; history := [];
     view := "dashboard"; activeDeckId := None |}.

End StoreOps.

(** ** The card view and the life cycle of a study session *)

Module StudyOps.
Import Study.

(** *** [handleDragEnd] of [FlashcardView], lines 24-37 of the card view *)

Inductive DragOutcome :=
  | Swiped (d : SwipeDirection)   (* [onSwipe(d)] *)
  | Flipped                       (* [setIsFlipped(prev => !prev)] *)
  | Stayed.

(** [x] and [y] are [info.offset.x] and [info.offset.y]. *)
Definition handleDragEnd (x y : Q) : DragOutcome :=
  let threshold := 100%Q in
  if negb (Qle_bool x threshold) then Swiped RIGHT
  else if negb (Qle_bool (- threshold) x) then Swiped LEFT
  else if negb (Qle_bool (- threshold) y) then Swiped UP
  else if negb (Qle_bool (Qabs x) 5) || negb (Qle_bool (Qabs y) 5) then Flipped
  else Stayed.

(** *** Building the queue *)

(** The [deck] prop of [StudySession], as far as the component reads it:
    its id and its cards.  [Deck] types the cards as [Flashcard], but the
    object of a stored card carries [isRetry] once [saveEdit] has handed a
    retry copy of the queue to [handleUpdateCard]; the queue is built from
    the cards as they are stored, so they are taken as [StudyCard]s. *)
Record SessionDeck := mkSessionDeck {
  sd_id : string;
  sd_cards : list StudyCard
}.

(** [cardsToLearn], lines 795-798 and 857-860. *)
Definition cardsToLearn (deck : SessionDeck) (initialCardIds : option (list string))
    : list StudyCard :=
  match initialCardIds with
  | Some ids =>
      if bool_decide (0 < length ids)
      then filter (λ c, sc_id c ∈ ids) (sd_cards deck)
      else sd_cards deck
  | None => sd_cards deck
  end.

(** *** The persisted session, lines 775-853 *)

Record SavedSession := mkSavedSession {
  ss_deckId : string;
  ss_queue : list StudyCard;
  ss_history : list Transcript;
  ss_correctCount : nat;
  ss_totalSessionCards : nat
}.

(** [localStorage], as far as the session records go. *)
Abbreviation Storage := (gmap string SavedSession).

Definition SESSION_KEY (deck : SessionDeck) : string :=
  ("vocabflow_session_" +:+ sd_id deck)%string.

(** The effect that runs after every render, lines 839-848. *)
Definition persistSession (deck : SessionDeck) (s : Session) (totalSessionCards : nat)
    (storage : Storage) : Storage :=
  <[SESSION_KEY deck :=
      {| ss_deckId := sd_id deck; ss_queue := studyQueue s;
         ss_history := sessionHistory s; ss_correctCount := correctCount s;
         ss_totalSessionCards := totalSessionCards |}]> storage.

(** [handleExit], lines 850-853. *)
Definition handleExit (deck : SessionDeck) (storage : Storage) : Storage :=
  delete (SESSION_KEY deck) storage.

Section Shuffle.

(** [shuffle l] is the array that [[...l].sort(() => Math.random() - 0.5)]
    returns in this call. *)
Variable shuffle : list StudyCard → list StudyCard.

(** The four state initialisers of [StudySession], lines 786-837: the
    session and [totalSessionCards] with which the component mounts. *)
Definition mountSession (deck : SessionDeck) (initialCardIds : option (list string))
    (storage : Storage) : Session * nat :=
  let saved := storage !! SESSION_KEY deck in
  let queue :=
    match saved with
    | Some parsed =>
        if bool_decide (ss_deckId parsed = sd_id deck)
           && bool_decide (0 < length (ss_queue parsed))
        then ss_queue parsed
        else shuffle (cardsToLearn deck initialCardIds)
    | None => shuffle (cardsToLearn deck initialCardIds)
    end in
  let history :=
    match saved with
    | Some parsed =>
        if bool_decide (ss_deckId parsed = sd_id deck) then ss_history parsed else []
    | None => []
    end in
  let count :=
    match saved with
    | Some parsed =>
        if bool_decide (ss_deckId parsed = sd_id deck) then ss_correctCount parsed else 0
    | None => 0
    end in
  let total :=
    match saved with
    | Some parsed =>
        if bool_decide (ss_totalSessionCards parsed ≠ 0)
        then ss_totalSessionCards parsed
        else length queue
    | None => length queue
    end in
  ({| studyQueue := queue; sessionHistory := history; correctCount := count |}, total).

(** [handleRestart], lines 855-870. *)
Definition handleRestart (isShuffle : bool) (deck : SessionDeck)
    (initialCardIds : option (list string)) (s : Session) : Session :=
  let newQueue :=
    if isShuffle then shuffle (cardsToLearn deck initialCardIds)
    else cardsToLearn deck initialCardIds in
  {| studyQueue := newQueue; sessionHistory := []; correctCount := 0 |}.

End Shuffle.

End StudyOps.

(** ** More concrete data for the examples *)

Module MoreSamples.
Import Study Store StoreOps StudyOps.

Definition flash (i term : string) : Flashcard := sc_card (Samples.card i term).

Definition deck_two : Deck :=
  {| d_id := "d3"; d_authorId := "anna"; d_name := "Two";
     d_cards := [flash "a" "uno"; flash "b" "due"]; d_createdAt := 7 |}.

Definition entry_one : HistoryEntry :=
  {| h_id := "h1"; h_userId := "anna"; h_deckId := "d1"; h_deckName := "Mine";
     h_action := Created; h_timestamp := 1 |}.

(** The store of [anna] with a deck that has cards and one history entry. *)
Definition store_full : AppState :=
  {| currentUser := Some Samples.user_anna;
     decks := [Samples.deck_mine; Samples.deck_other; deck_two];
     courses := [Samples.course_local];
     folders := [Samples.folder_local];
     history := [entry_one];
     view := "deck-detail";
     activeDeckId := Some "d3"%string |}.

Definition user_ben : User :=
  {| u_id := "ben"; u_name := "Ben"; u_email := "ben@example.org"; u_avatar := None |}.

(** The store of [ben], who has nothing yet. *)
Definition store_ben : AppState :=
  {| currentUser := Some user_ben; decks := []; courses := []; folders := [];
     history := []; view := "dashboard"; activeDeckId := None |}.

Definition nav_full : CourseNav :=
  {| nav_app := store_full; activeCourseId := Some "c1"%string |}.

(** Decks as a study session gets them. *)
Definition study_mine : SessionDeck := {| sd_id := "d1"; sd_cards := [] |}.
Definition study_other : SessionDeck := {| sd_id := "d2"; sd_cards := [] |}.
Definition study_one : SessionDeck :=
  {| sd_id := "d"; sd_cards := [Samples.card "a" "uno"] |}.
Definition study_two : SessionDeck :=
  {| sd_id := "d3"; sd_cards := [Samples.card "a" "uno"; Samples.card "b" "due"] |}.
(** A deck whose second card was edited while it was a retry copy. *)
Definition study_edited : SessionDeck :=
  {| sd_id := "d4";
     sd_cards := [Samples.card "a" "uno"; markRetry (Samples.card "b" "due")] |}.



End MoreSamples.

(** * Facts about the array methods *)

Module JsArrayFacts.

Section Find.
Context {A : Type} (P : A → Prop) `{!∀ x, Decision (P x)}.
Implicit Types l : list A.

Lemma findIndex_Some l i :
  findIndex P l = Some i ↔
  ∃ x, l !! i = Some x ∧ P x ∧ ∀ j y, l !! j = Some y → j < i → ¬ P y.
Proof.
  unfold findIndex. rewrite fmap_Some. split.
  - intros ([j x] & Hf & ->). exists x. simpl. by apply list_find_Some in Hf.
  - intros (x & Hx). exists (i, x). split; [|done]. by apply list_find_Some.
Qed.

Lemma findIndex_None l : findIndex P l = None ↔ Forall (λ x, ¬ P x) l.
Proof. unfold findIndex. by rewrite fmap_None, list_find_None. Qed.

Lemma find_None l : find P l = None ↔ Forall (λ x, ¬ P x) l.
Proof. unfold find. by rewrite fmap_None, list_find_None. Qed.

End Find.

End JsArrayFacts.
Import JsArrayFacts.

(** * Facts about the study session *)

Module StudyFacts.
Import Study.

(** ** Rounding to binary64 *)

(** The nearest integer is the floor or the next integer, and at most one
    half above the number. *)
Lemma round_half_even_near (y : Q) :
  (inject_Z (Qfloor y) <= inject_Z (round_half_even y))%Q ∧
  (inject_Z (round_half_even y) <= y + (1 # 2))%Q.
Proof.
  pose proof (Qfloor_le y) as Hlo. unfold round_half_even.
  destruct (y - inject_Z (Qfloor y) ?= 1 # 2)%Q eqn:Hcmp.
  - apply Qeq_alt in Hcmp. destruct (Z.even (Qfloor y)).
    + split; lra.
    + rewrite inject_Z_plus. change (inject_Z 1) with 1%Q. split; lra.
  - split; lra.
  - apply Qgt_alt in Hcmp. rewrite inject_Z_plus. change (inject_Z 1) with 1%Q.
    split; lra.
Qed.

Lemma round_half_even_comp (y y' : Q) :
  (y == y')%Q → round_half_even y = round_half_even y'.
Proof.
  intros Hy. unfold round_half_even.
  rewrite (Qfloor_comp y y' Hy).
  assert (y - inject_Z (Qfloor y') == y' - inject_Z (Qfloor y'))%Q as Hd by (by rewrite Hy).
  by rewrite (Qcompare_comp _ _ Hd (1 # 2) (1 # 2) (Qeq_refl _)).
Qed.

(** An integer is its own nearest integer. *)
Lemma round_half_even_Z (z : Z) : round_half_even (inject_Z z) = z.
Proof.
  unfold round_half_even. rewrite Qfloor_Z.
  destruct (inject_Z z - inject_Z z ?= 1 # 2)%Q eqn:Hc; [|done|].
  - apply Qeq_alt in Hc. lra.
  - apply Qgt_alt in Hc. lra.
Qed.

Lemma Qabs_of_pos (x : Q) : (0 < x)%Q → Qabs x = x.
Proof.
  destruct x as [n d]. unfold Qlt, Qabs. cbn [Qnum Qden]. intros H.
  f_equal. apply Z.abs_eq. lia.
Qed.

(** [Qlog2 x] is below every [K] with [x < 2^K]. *)
Lemma Qlog2_lt (x : Q) (K : Z) : (0 < x)%Q → (x < 2 ^ K)%Q → (Qlog2 x < K)%Z.
Proof.
  intros Hpos Hlt. unfold Qlog2.
  set (k := (Z.log2 (Qnum x) - Z.log2 (Z.pos (Qden x)))%Z).
  destruct (Qle_bool (2 ^ k) x) eqn:Hle.
  - apply Qle_bool_iff in Hle.
    apply (Qpower_lt_compat_l_inv 2); [|reflexivity].
    eapply Qle_lt_trans; [exact Hle|]. exact Hlt.
  - cut (k ≤ K)%Z; [lia|]. subst k. clear Hle.
    destruct (decide (0 ≤ K)%Z) as [HK|HK].
    + rewrite <- (Zpower_Qpower 2 K HK) in Hlt.
      destruct x as [n d]. unfold Qlt in *. cbn [Qnum Qden inject_Z] in *.
      assert (Z.log2 n ≤ Z.log2 (Z.pos d * 2 ^ K))%Z as H
        by (apply Z.log2_le_mono; lia).
      rewrite Z.log2_mul_pow2 in H; lia.
    + assert (x * inject_Z (2 ^ (- K)) < 1)%Q as Hlt'.
      { rewrite (Zpower_Qpower 2 (- K)) by lia. change (inject_Z 2) with 2%Q.
        assert (0 < 2 ^ (- K))%Q as HP by (by apply Qpower_0_lt).
        apply (Qmult_lt_compat_r _ _ (2 ^ (- K))%Q HP) in Hlt.
        rewrite <- Qpower_plus in Hlt by done.
        by replace (K + - K)%Z with 0%Z in Hlt by lia. }
      destruct x as [n d]. unfold Qlt, Qmult in *. cbn [Qnum Qden inject_Z] in *.
      assert (Z.log2 (n * 2 ^ (- K)) ≤ Z.log2 (Z.pos d))%Z as H
        by (apply Z.log2_le_mono; lia).
      rewrite Z.log2_mul_pow2 in H; lia.
Qed.

(** A binary64 number is the binary64 number nearest to itself. *)
Lemma binary64_round_fixed (x : Q) : is_binary64 x → (binary64_round x == x)%Q.
Proof.
  intros (m & e & Hm & He & Hx). unfold binary64_round.
  destruct (Qeq_bool x 0) eqn:H0.
  { apply Qeq_bool_iff in H0. by rewrite H0. }
  apply Qeq_bool_neq in H0.
  set (e' := Z.max (Qlog2 (Qabs x) - 52) (-1074)).
  assert (0 < 2 ^ e)%Q as HP by (by apply Qpower_0_lt).
  assert (0 < 2 ^ e')%Q as HP' by (by apply Qpower_0_lt).
  assert (He' : (e' ≤ e)%Z).
  { cut (Qlog2 (Qabs x) < e + 53)%Z; [lia|]. apply Qlog2_lt.
    - pose proof (Qabs_nonneg x) as Hnn. apply Qle_lteq in Hnn as [Hn|Hz]; [done|].
      destruct H0. revert Hz. apply Qabs_case; intros; lra.
    - rewrite (Qabs_wd _ _ Hx), Qabs_Qmult, (Qabs_pos (2 ^ e)) by lra.
      rewrite Qpower_plus, (Qmult_comm (2 ^ e)) by done.
      apply Qmult_lt_compat_r; [done|].
      change (Qabs (inject_Z m)) with (inject_Z (Z.abs m)).
      change (2 ^ 53)%Q with (inject_Z (2 ^ 53)). by rewrite <- Zlt_Qlt. }
  assert (Hscale : (2 ^ e == inject_Z (2 ^ (e - e')) * 2 ^ e')%Q).
  { rewrite Zpower_Qpower by lia. change (inject_Z 2) with 2%Q.
    rewrite <- Qpower_plus by done. by replace (e - e' + e')%Z with e by lia. }
  assert (Hdiv : (x / 2 ^ e' == inject_Z (m * 2 ^ (e - e')))%Q).
  { rewrite Hx, Hscale, inject_Z_mult. field. lra. }
  rewrite (round_half_even_comp _ _ Hdiv), round_half_even_Z, inject_Z_mult, Hx, Hscale.
  ring.
Qed.

Lemma binary64_round_nonneg (x : Q) : (0 <= x)%Q → (0 <= binary64_round x)%Q.
Proof.
  intros Hx. unfold binary64_round. destruct (Qeq_bool x 0); [lra|].
  set (e := Z.max _ _).
  assert (0 < 2 ^ e)%Q as HP by (by apply Qpower_0_lt).
  apply Qmult_le_0_compat; [|lra].
  destruct (round_half_even_near (x / 2 ^ e)) as [Hlo _].
  eapply Qle_trans; [|exact Hlo].
  change 0%Q with (inject_Z 0). rewrite <- Zle_Qle, <- (Qfloor_Z 0).
  apply Qfloor_resp_le.
  change (inject_Z 0) with 0%Q. apply Qle_shift_div_l; [done|]. lra.
Qed.

(** Below 16 the unit in the last place is at most [2^-49]: rounding adds
    at most [2^-50]. *)
Lemma binary64_round_above (x : Q) :
  (0 <= x)%Q → (x < 16)%Q → (binary64_round x <= x + (1 # 2 ^ 50))%Q.
Proof.
  intros Hx Hlt. unfold binary64_round.
  destruct (Qeq_bool x 0) eqn:H0.
  { apply Qeq_bool_iff in H0. rewrite H0. by compute. }
  assert (0 < x)%Q as Hpos.
  { apply Qeq_bool_neq in H0. apply Qle_lteq in Hx as [?|Heq]; [done|].
    destruct H0. by symmetry. }
  set (e := Z.max _ _).
  assert (e ≤ -49)%Z as He.
  { subst e. rewrite (Qabs_of_pos x Hpos).
    pose proof (Qlog2_lt x 4 Hpos Hlt). lia. }
  assert (0 < 2 ^ e)%Q as HP by (by apply Qpower_0_lt).
  assert (2 ^ e <= 2 ^ (-49))%Q as HPle by (apply Qpower_le_compat_l; [done|by compute]).
  change (2 ^ (-49))%Q with (1 # 562949953421312)%Q in HPle.
  destruct (round_half_even_near (x / 2 ^ e)) as [_ Hup].
  apply (Qmult_le_compat_r _ _ (2 ^ e)) in Hup; [|lra].
  eapply Qle_trans; [exact Hup|].
  assert ((x / 2 ^ e + (1 # 2)) * 2 ^ e == x + (1 # 2) * 2 ^ e)%Q as ->
    by (field; lra).
  change (1 # 2 ^ 50)%Q with (1 # 1125899906842624)%Q.
  lra.
Qed.

(** The largest binary64 number below 1 is [1 - 2^-53]. *)
Lemma binary64_below_one (u : Q) :
  is_binary64 u → (u < 1)%Q → (u <= 1 - (1 # 2 ^ 53))%Q.
Proof.
  intros (m & e & Hm & He & Hu) Hlt.
  change (1 # 2 ^ 53)%Q with (1 # 9007199254740992)%Q.
  assert (0 < 2 ^ e)%Q as HP by (by apply Qpower_0_lt).
  destruct (decide (e ≤ -54)%Z) as [Hsmall|Hbig].
  - assert (2 ^ e <= 2 ^ (-54))%Q as HPle
      by (apply Qpower_le_compat_l; [done|by compute]).
    change (2 ^ (-54))%Q with (1 # 18014398509481984)%Q in HPle.
    assert (inject_Z m < inject_Z (2 ^ 53))%Q as Hm' by (rewrite <- Zlt_Qlt; lia).
    change (inject_Z (2 ^ 53)) with (9007199254740992 # 1)%Q in Hm'.
    destruct (decide (m ≤ 0)%Z) as [Hneg|Hposm].
    + assert (inject_Z m <= 0)%Q as Hm0
        by (change 0%Q with (inject_Z 0); rewrite <- Zle_Qle; lia).
      assert (inject_Z m * 2 ^ e <= 0 * 2 ^ e)%Q as Hle0
        by (apply Qmult_le_compat_r; lra).
      lra.
    + assert (0 <= inject_Z m)%Q as Hm0
        by (change 0%Q with (inject_Z 0); rewrite <- Zle_Qle; lia).
      assert (inject_Z m * 2 ^ e <= inject_Z m * (1 # 18014398509481984))%Q as Hle1.
      { rewrite !(Qmult_comm (inject_Z m)). by apply Qmult_le_compat_r. }
      lra.
  - set (N := (m * 2 ^ (e + 53))%Z).
    assert (u == inject_Z N * (1 # 9007199254740992))%Q as HuN.
    { rewrite Hu. subst N. rewrite inject_Z_mult, Zpower_Qpower by lia.
      change (inject_Z 2) with 2%Q. change (1 # 9007199254740992)%Q with (2 ^ (-53))%Q.
      rewrite <- Qmult_assoc, <- Qpower_plus by done.
      by replace (e + 53 + -53)%Z with e by lia. }
    assert (N < 2 ^ 53)%Z as HN.
    { rewrite Zlt_Qlt. change (inject_Z (2 ^ 53)) with (9007199254740992 # 1)%Q.
      lra. }
    assert (inject_Z N <= inject_Z (2 ^ 53 - 1))%Q as HN' by (rewrite <- Zle_Qle; lia).
    change (inject_Z (2 ^ 53 - 1)) with (9007199254740991 # 1)%Q in HN'.
    lra.
Qed.

(** ** The random offset *)

(** For a drawn number [rnd] the product [rnd * 11] is at most
    [11 - 11 * 2^-53] before rounding and stays below 11 after it. *)
Lemma random_draw_range (rnd : Q) :
  is_binary64 rnd → (0 <= rnd)%Q → (rnd < 1)%Q →
  (0 ≤ Math_floor (Math_mul rnd 11) ≤ 10)%Z.
Proof.
  intros Hd Hlo Hhi. unfold Math_floor, Math_mul.
  pose proof (binary64_below_one rnd Hd Hhi) as Htop.
  change (1 # 2 ^ 53)%Q with (1 # 9007199254740992)%Q in Htop.
  assert (0 <= rnd * 11)%Q as H0 by lra.
  assert (rnd * 11 < 16)%Q as H16 by lra.
  pose proof (binary64_round_nonneg _ H0) as Hnn.
  pose proof (binary64_round_above _ H0 H16) as Hup.
  change (1 # 2 ^ 50)%Q with (1 # 1125899906842624)%Q in Hup.
  split.
  - rewrite <- (Qfloor_Z 0). by apply Qfloor_resp_le.
  - cut (Qfloor (binary64_round (rnd * 11)) < 11)%Z; [lia|].
    rewrite Zlt_Qlt. eapply Qle_lt_trans; [apply Qfloor_le|].
    change (inject_Z 11) with 11%Q. lra.
Qed.

Lemma leftOffset_draw (rnd : Q) :
  is_binary64 rnd → (0 <= rnd)%Q → (rnd < 1)%Q →
  ∃ r : nat, r ≤ 10 ∧
    (inject_Z (Z.of_nat r) <= Math_mul rnd 11)%Q ∧
    (Math_mul rnd 11 < inject_Z (Z.of_nat r) + 1)%Q ∧
    leftOffset rnd = 5 + r.
Proof.
  intros Hd Hlo Hhi. destruct (random_draw_range rnd Hd Hlo Hhi) as [H0 H10].
  exists (Z.to_nat (Math_floor (Math_mul rnd 11))).
  rewrite Z2Nat.id by done. unfold Math_floor in *. split_and!; [lia| | |done].
  - apply Qfloor_le.
  - pose proof (Qlt_floor (Math_mul rnd 11)) as H.
    by rewrite inject_Z_plus in H.
Qed.

(** The rounding at known values: 0.1, the product [0.1 * 3], ties to
    even at the top of the 53 bits, a negative number, and the subnormal
    range. *)
Example binary64_round_samples :
  (binary64_round (1 # 10) == 3602879701896397 # 36028797018963968)%Q ∧
  (Math_mul (3602879701896397 # 36028797018963968) 3
   == 5404319552844596 # 18014398509481984)%Q ∧
  (binary64_round (inject_Z (2 ^ 53 + 1)) == inject_Z (2 ^ 53))%Q ∧
  (binary64_round (inject_Z (2 ^ 53 + 3)) == inject_Z (2 ^ 53 + 4))%Q ∧
  (binary64_round (- (1 # 10)) == - (3602879701896397 # 36028797018963968))%Q ∧
  (binary64_round (3 * 2 ^ (-1075)) == 2 ^ (-1073))%Q ∧
  (binary64_round (2 ^ (-1075)) == 0)%Q.
Proof. split_and!; by vm_compute. Qed.

(** ** [splice] at a position inside the queue *)

Lemma splice_in_length i x q : length (splice_in i x q) = S (length q).
Proof.
  unfold splice_in. rewrite length_app. simpl.
  rewrite length_take, length_drop. lia.
Qed.

Lemma splice_in_lookup i x q : i ≤ length q → splice_in i x q !! i = Some x.
Proof.
  intros Hi. unfold splice_in.
  apply list_lookup_middle. by rewrite length_take_le.
Qed.

Lemma splice_in_delete i x q : i ≤ length q → delete i (splice_in i x q) = q.
Proof.
  intros Hi. unfold splice_in.
  replace i with (length (take i q)) at 1 by by rewrite length_take_le.
  rewrite delete_middle. apply take_drop.
Qed.

Lemma splice_in_perm i x q : splice_in i x q ≡ₚ x :: q.
Proof.
  unfold splice_in. rewrite <- Permutation_middle. by rewrite take_drop.
Qed.

(** Looking up the id of the inserted card finds the inserted copy when no
    other card of the queue carries that id. *)
Lemma splice_in_find i x q :
  i ≤ length q → sc_id x ∉ (sc_id <$> q) →
  findIndex (λ c, sc_id c = sc_id x) (splice_in i x q) = Some i.
Proof.
  intros Hi Hfresh. apply findIndex_Some. exists x. split_and!.
  - by apply splice_in_lookup.
  - done.
  - intros j y Hj Hlt Hy. apply Hfresh. rewrite <- Hy.
    apply list_elem_of_fmap_2.
    unfold splice_in in Hj. rewrite lookup_app_l in Hj by by rewrite length_take_le.
    apply list_elem_of_lookup_2 in Hj. by apply (subseteq_take i q).
Qed.

(** ** One swipe, then one undo *)

Lemma take_all_but_last {A} (h : list A) (e : A) :
  take (length (h ++ [e]) - 1) (h ++ [e]) = h.
Proof.
  rewrite length_app. simpl. rewrite Nat.add_sub. apply take_app_length.
Qed.

Lemma swipe_keeps_distinct d rnd s :
  distinct_ids (studyQueue s) → distinct_ids (studyQueue (handleCardSwipe d rnd s)).
Proof.
  unfold distinct_ids, handleCardSwipe. destruct s as [q h n]. simpl.
  destruct q as [|c rest]; [done|]. intros Hnd.
  destruct d; simpl; try (by rewrite splice_in_perm).
  by apply NoDup_cons in Hnd as [_ ?].
Qed.

Lemma undo_after_swipe d rnd s :
  distinct_ids (studyQueue s) → studyQueue s ≠ [] →
  handleUndo (handleCardSwipe d rnd s) = s.
Proof.
  destruct s as [q h n]. unfold distinct_ids. simpl. intros Hnd Hne.
  destruct q as [|c rest]; [done|]. clear Hne.
  apply NoDup_cons in Hnd as [Hc _].
  assert (Hfind : ∀ i, i ≤ length rest →
    findIndex (λ x, sc_id x = sc_id c) (splice_in i (markRetry c) rest) = Some i).
  { intros i Hi. by apply (splice_in_find i (markRetry c) rest). }
  destruct d; unfold handleCardSwipe, handleUndo; simpl;
    rewrite last_snoc, take_all_but_last; simpl.
  - rewrite Hfind by lia. by rewrite splice_in_delete by lia.
  - f_equal. lia.
  - rewrite Hfind by lia. by rewrite splice_in_delete by lia.
Qed.

Lemma run_swipes_cons e sw s :
  run_swipes (e :: sw) s = run_swipes sw (handleCardSwipe e.1 e.2 s).
Proof. done. Qed.

Lemma undo_times_run sw : ∀ s,
  distinct_ids (studyQueue s) → swipes_enabled sw s →
  undo_times (length sw) (run_swipes sw s) = s.
Proof.
  induction sw as [|e sw IH]; intros s Hnd Hen; [done|].
  destruct Hen as [Hne Hen]. rewrite run_swipes_cons. simpl.
  unfold undo_times in *. simpl. rewrite IH; [|by apply swipe_keeps_distinct|done].
  by apply undo_after_swipe.
Qed.

(** What one undo does to a session whose transcript ends in [e]. *)
Lemma undo_step s h e :
  sessionHistory s = h ++ [e] →
  sessionHistory (handleUndo s) = h ∧
  (t_action e = RIGHT → correctCount (handleUndo s) = correctCount s - 1) ∧
  (t_action e ≠ RIGHT → correctCount (handleUndo s) = correctCount s) ∧
  ∃ q', studyQueue (handleUndo s) = t_card e :: q' ∧
    (t_insertedAt e = None → q' = studyQueue s) ∧
    (is_Some (t_insertedAt e) →
       ((sc_id (t_card e) ∉ sc_id <$> studyQueue s) ∧ q' = studyQueue s) ∨
       (∃ l1 x l2, studyQueue s = l1 ++ x :: l2 ∧ sc_id x = sc_id (t_card e) ∧
                   (sc_id (t_card e) ∉ sc_id <$> l1) ∧ q' = l1 ++ l2)).
Proof.
  intros Hh. unfold handleUndo. rewrite Hh, last_snoc, take_all_but_last. simpl.
  split_and!; [done|intros ->; simpl; lia|intros ?; by case_decide|].
  destruct (t_insertedAt e) as [p|]; [|by eexists; split_and!; [done|done|intros [? [=]]]].
  destruct (findIndex _ (studyQueue s)) as [i|] eqn:Hf.
  - eexists; split_and!; [done|done|]. intros _. right.
    apply findIndex_Some in Hf as (x & Hi & Hx & Hleast).
    exists (take i (studyQueue s)), x, (drop (S i) (studyQueue s)). split_and!.
    + by rewrite take_drop_middle.
    + done.
    + intros (y & Hy & [j [Hj Hlt]]%elem_of_take)%list_elem_of_fmap.
      by apply (Hleast j y).
    + rewrite <- (take_drop_middle _ _ _ Hi) at 1.
      replace i with (length (take i (studyQueue s))) at 1; [apply delete_middle|].
      apply length_take_le. apply lookup_lt_Some in Hi. lia.
  - eexists; split_and!; [done|done|]. intros _. left. split; [|done].
    apply findIndex_None in Hf.
    intros (y & Hy & Hin)%list_elem_of_fmap.
    rewrite Forall_forall in Hf. by apply (Hf y).
Qed.

Lemma undo_nothing s : sessionHistory s = [] → handleUndo s = s.
Proof. intros Hh. unfold handleUndo. by rewrite Hh. Qed.

(** ** The claims about the study queue *)

(** C1, amended.  Undo inverts swipe on every session whose queue holds
    no two cards with the same id: after any run of swipes, each on a
    non-empty queue, the same number of undos gives back the queue, the
    transcript and the correct-count.  One undo pops the last transcript
    entry, lowers the correct-count by one (not below 0) exactly when the
    popped action was RIGHT, removes the first queue card carrying the
    popped card's id exactly when the entry has an [insertedAt], and puts
    the popped card in front.  Undo on an empty transcript changes nothing. *)
Theorem undo_inverts_swipes :
  (∀ (s : Session) (sw : list (SwipeDirection * Q)),
      distinct_ids (studyQueue s) → swipes_enabled sw s →
      undo_times (length sw) (run_swipes sw s) = s) ∧
  (∀ (s : Session) (h : list Transcript) (e : Transcript),
      sessionHistory s = h ++ [e] →
      sessionHistory (handleUndo s) = h ∧
      (t_action e = RIGHT → correctCount (handleUndo s) = correctCount s - 1) ∧
      (t_action e ≠ RIGHT → correctCount (handleUndo s) = correctCount s) ∧
      ∃ q', studyQueue (handleUndo s) = t_card e :: q' ∧
        (t_insertedAt e = None → q' = studyQueue s) ∧
        (is_Some (t_insertedAt e) →
           ((sc_id (t_card e) ∉ sc_id <$> studyQueue s) ∧ q' = studyQueue s) ∨
           (∃ l1 x l2, studyQueue s = l1 ++ x :: l2 ∧ sc_id x = sc_id (t_card e) ∧
                       (sc_id (t_card e) ∉ sc_id <$> l1) ∧ q' = l1 ++ l2))) ∧
  (∀ s : Session, sessionHistory s = [] → handleUndo s = s).
Proof.
  split_and!.
  - intros s sw. apply undo_times_run.
  - apply undo_step.
  - apply undo_nothing.
Qed.

Lemma undo_inverts_swipes_witness :
  undo_times 3 (run_swipes [(LEFT, 0%Q); (RIGHT, 0%Q); (UP, 1#2)] Samples.session_abc)
    = Samples.session_abc ∧
  sessionHistory (handleUndo Samples.session_done) = [] ∧
  handleUndo Samples.session_empty = Samples.session_empty.
Proof.
  split_and!.
  - apply (proj1 undo_inverts_swipes Samples.session_abc
             [(LEFT, 0%Q); (RIGHT, 0%Q); (UP, 1#2)]).
    + apply (bool_decide_unpack _). vm_compute. reflexivity.
    + simpl. split_and!; try exact I; discriminate.
  - apply (proj1 (proj2 undo_inverts_swipes) Samples.session_done []
             (mkTranscript (Samples.card "a" "uno") RIGHT None)).
    reflexivity.
  - apply (proj2 (proj2 undo_inverts_swipes) Samples.session_empty). reflexivity.
Defined.

(** C1 as stated fails when two cards of the queue share an id: the id
    lookup of undo removes the first card with that id, here the third
    card of the deck, not the copy that the swipe inserted behind it. *)
Lemma undo_removes_other_card_with_same_id :
  swipes_enabled [(LEFT, 0%Q)] Samples.session_shared_id ∧
  studyQueue (undo_times 1 (run_swipes [(LEFT, 0%Q)] Samples.session_shared_id))
    = [Samples.card "a" "uno"; Samples.card "b" "due"; markRetry (Samples.card "a" "uno")] ∧
  undo_times 1 (run_swipes [(LEFT, 0%Q)] Samples.session_shared_id)
    ≠ Samples.session_shared_id.
Proof.
  split_and!.
  - simpl. split; [discriminate|exact I].
  - vm_compute. reflexivity.
  - vm_compute. discriminate.
Qed.

(** The first step of the five-card example: whatever number is drawn, the
    missed card goes to the end of the four cards that remain. *)
Example five_cards_left (rnd : Q) :
  let q := [Samples.card "A" "a"; Samples.card "B" "b"; Samples.card "C" "c";
            Samples.card "D" "d"; Samples.card "E" "e"] in
  studyQueue (handleCardSwipe LEFT rnd (mkSession q [] 0))
  = [Samples.card "B" "b"; Samples.card "C" "c"; Samples.card "D" "d";
     Samples.card "E" "e"; markRetry (Samples.card "A" "a")].
Proof. reflexivity. Qed.

(** The draw [0.2727272727272727] shows the rounding of the product: the
    exact product with 11 lies below 3, the binary64 product is 3, and so
    the missed card of a twelve-card session goes to position 8. *)
Example left_offset_of_rounded_product :
  is_binary64 Samples.draw_near_3_11 ∧
  Qfloor (Samples.draw_near_3_11 * 11) = 2%Z ∧
  (Math_mul Samples.draw_near_3_11 11 == 3)%Q ∧
  leftOffset Samples.draw_near_3_11 = 8 ∧
  studyQueue (handleCardSwipe LEFT Samples.draw_near_3_11 Samples.session_twelve) !! 8
  = Some (markRetry (Samples.card "1" "uno")).
Proof.
  split_and!.
  - exists 4913017775313268%Z, (-54)%Z. split_and!; [by vm_compute|lia|lia|by vm_compute].
  - by vm_compute.
  - by vm_compute.
  - by vm_compute.
  - by vm_compute.
Qed.

(** C3.  On a queue [c :: rest], swipe LEFT puts a copy of [c] with
    [isRetry = true] at position [min (length rest) (5 + r)], where [r],
    the integer part of the binary64 product of the drawn number and 11,
    is an integer of 0..10, and swipe UP puts it at position
    [min (length rest) 20]; the front card is gone, and the new transcript
    entry records that position as [insertedAt]. *)
Theorem missed_card_reinsertion (s : Session) (c : StudyCard)
    (rest : list StudyCard) (rnd : Q) :
  studyQueue s = c :: rest → is_binary64 rnd → (0 <= rnd)%Q → (rnd < 1)%Q →
  let retry := {| sc_card := sc_card c; sc_isRetry := Some true |} in
  (∃ r : nat, r ≤ 10 ∧
     (inject_Z (Z.of_nat r) <= Math_mul rnd 11)%Q ∧
     (Math_mul rnd 11 < inject_Z (Z.of_nat r) + 1)%Q ∧
     let p := Nat.min (length rest) (5 + r) in
     let s' := handleCardSwipe LEFT rnd s in
     studyQueue s' = take p rest ++ retry :: drop p rest ∧
     studyQueue s' !! p = Some retry ∧
     delete p (studyQueue s') = rest ∧
     last (sessionHistory s') = Some (mkTranscript c LEFT (Some p))) ∧
  (let p := Nat.min (length rest) 20 in
   let s' := handleCardSwipe UP rnd s in
   studyQueue s' = take p rest ++ retry :: drop p rest ∧
   studyQueue s' !! p = Some retry ∧
   delete p (studyQueue s') = rest ∧
   last (sessionHistory s') = Some (mkTranscript c UP (Some p))).
Proof.
  intros Hq Hd Hlo Hhi retry. split.
  - destruct (leftOffset_draw rnd Hd Hlo Hhi) as (r & Hr & Hfloor & Hceil & Hoff).
    exists r. split_and!; [done|done|done|]. intros p s'.
    subst p s'. unfold handleCardSwipe. rewrite Hq, Hoff. simpl.
    split_and!; [done| |  |by rewrite last_snoc].
    + apply splice_in_lookup. lia.
    + apply splice_in_delete. lia.
  - intros p s'. subst p s'. unfold handleCardSwipe. rewrite Hq. simpl.
    split_and!; [done| |  |by rewrite last_snoc].
    + apply splice_in_lookup. lia.
    + apply splice_in_delete. lia.
Qed.

Lemma missed_card_reinsertion_witness :
  studyQueue (handleCardSwipe UP Samples.draw_near_3_11 Samples.session_abc)
    = [Samples.card "b" "due"; Samples.card "c" "tre"; markRetry (Samples.card "a" "uno")].
Proof.
  destruct (missed_card_reinsertion Samples.session_abc (Samples.card "a" "uno")
              [Samples.card "b" "due"; Samples.card "c" "tre"] Samples.draw_near_3_11)
    as [_ (Hq & _)].
  - reflexivity.
  - exists 4913017775313268%Z, (-54)%Z. split_and!; [by vm_compute|lia|lia|by vm_compute].
  - by vm_compute.
  - by vm_compute.
  - exact Hq.
Defined.



(** C8.  The session is shown as finished exactly when the queue is empty
    and the correct-count is positive; with an empty queue and a
    correct-count of zero the loading screen is shown instead. *)
Theorem finished_condition (s : Session) :
  (render s = Finished ↔ studyQueue s = [] ∧ 0 < correctCount s) ∧
  (studyQueue s = [] → correctCount s = 0 → render s = Loading).
Proof.
  unfold render. destruct s as [q h n]. simpl. split.
  - destruct q as [|c q]; simpl.
    + destruct n as [|n]; simpl; split; try done; try (intros [_ ?]; lia).
      intros _. split; [done|lia].
    + split; [done|]. by intros [? _].
  - by intros -> ->.
Qed.

Lemma finished_condition_witness :
  render Samples.session_empty = Loading ∧ render Samples.session_done = Finished.
Proof.
  split.
  - apply (proj2 (finished_condition Samples.session_empty)); reflexivity.
  - apply (proj1 (finished_condition Samples.session_done)).
    split; [reflexivity|]. simpl. lia.
Defined.

(** C9.  A swipe on an empty queue changes nothing: queue, transcript and
    correct-count stay as they are, whatever the direction. *)
Theorem swipe_on_empty_queue (s : Session) (d : SwipeDirection) (rnd : Q) :
  studyQueue s = [] → handleCardSwipe d rnd s = s.
Proof. intros Hq. unfold handleCardSwipe. by rewrite Hq. Qed.

Lemma swipe_on_empty_queue_witness :
  handleCardSwipe LEFT (1#3) Samples.session_done = Samples.session_done.
Proof. apply swipe_on_empty_queue. reflexivity. Defined.

End StudyFacts.

(** * Facts about the entity store *)

Module StoreFacts.
Import Store.

(** ** The additive loop of decks, folders and history *)

Section Additive.
Context {A : Type} `{HasId A}.
Implicit Types (local merged incoming : list A) (d : A).

Lemma no_match_iff merged (k : string) :
  Forall (λ existing : A, ¬ idOf existing = k) merged ↔ k ∉ idOf <$> merged.
Proof.
  rewrite Forall_forall, list_elem_of_fmap. split.
  - intros Hall (x & -> & Hx). by apply (Hall x).
  - intros Hno x Hx Hid. apply Hno. by exists x.
Qed.

Lemma pushIfAbsent_present merged d :
  idOf d ∈ idOf <$> merged → pushIfAbsent merged d = merged.
Proof.
  intros Hin. unfold pushIfAbsent.
  destruct (find _ merged) eqn:Hf; [done|].
  by apply find_None, no_match_iff in Hf.
Qed.

Lemma pushIfAbsent_absent merged d :
  idOf d ∉ idOf <$> merged → pushIfAbsent merged d = merged ++ [d].
Proof.
  intros Hin. unfold pushIfAbsent.
  apply no_match_iff, (find_None (λ existing, idOf existing = idOf d)) in Hin.
  by rewrite Hin.
Qed.

Lemma pushIfAbsent_has_id merged d : idOf d ∈ idOf <$> pushIfAbsent merged d.
Proof.
  destruct (decide (idOf d ∈ idOf <$> merged)) as [Hin|Hout].
  - by rewrite pushIfAbsent_present.
  - rewrite pushIfAbsent_absent, fmap_app by done. set_solver.
Qed.

Lemma mergeAdditive_cons local d incoming :
  mergeAdditive local (d :: incoming) = mergeAdditive (pushIfAbsent local d) incoming.
Proof. done. Qed.

Lemma mergeAdditive_snoc local incoming d :
  mergeAdditive local (incoming ++ [d]) = pushIfAbsent (mergeAdditive local incoming) d.
Proof. unfold mergeAdditive. by rewrite foldl_snoc. Qed.

(** The local records stay where they are; what the merge adds comes
    from the bundle, in the bundle's order. *)
Lemma mergeAdditive_extends incoming : ∀ local,
  ∃ extra, mergeAdditive local incoming = local ++ extra ∧ sublist extra incoming.
Proof.
  induction incoming as [|d incoming IH]; intros local.
  - exists []. by rewrite app_nil_r.
  - rewrite mergeAdditive_cons.
    destruct (IH (pushIfAbsent local d)) as (extra & -> & Hsub).
    destruct (decide (idOf d ∈ idOf <$> local)) as [Hin|Hout].
    + rewrite pushIfAbsent_present by done. exists extra. split; [done|].
      by apply sublist_cons.
    + rewrite pushIfAbsent_absent by done. exists (d :: extra).
      rewrite <- app_assoc. split; [done|]. by apply sublist_skip.
Qed.

(** What the merge adds has ids that are new to the local records: an
    incoming record with a known id is dropped. *)
Lemma mergeAdditive_adds_new incoming : ∀ local,
  ∃ extra, mergeAdditive local incoming = local ++ extra ∧ sublist extra incoming ∧
           ∀ x, x ∈ extra → idOf x ∉ idOf <$> local.
Proof.
  induction incoming as [|d incoming IH]; intros local.
  - exists []. rewrite app_nil_r. split_and!; [done|done|]. by intros x ?%elem_of_nil.
  - rewrite mergeAdditive_cons.
    destruct (IH (pushIfAbsent local d)) as (extra & -> & Hsub & Hnew).
    destruct (decide (idOf d ∈ idOf <$> local)) as [Hin|Hout].
    + rewrite pushIfAbsent_present in * by done. exists extra.
      split_and!; [done|by apply sublist_cons|done].
    + rewrite pushIfAbsent_absent in * by done. exists (d :: extra).
      rewrite <- app_assoc. split_and!; [done|by apply sublist_skip|].
      intros x [->|Hx]%elem_of_cons; [done|].
      intros Hin. apply (Hnew x Hx). rewrite fmap_app, elem_of_app. by left.
Qed.

Lemma mergeAdditive_keeps_ids local incoming k :
  k ∈ idOf <$> local → k ∈ idOf <$> mergeAdditive local incoming.
Proof.
  destruct (mergeAdditive_extends incoming local) as (extra & -> & _).
  rewrite fmap_app, elem_of_app. by left.
Qed.

Lemma mergeAdditive_takes_ids incoming : ∀ local d,
  d ∈ incoming → idOf d ∈ idOf <$> mergeAdditive local incoming.
Proof.
  induction incoming as [|x incoming IH]; intros local d Hd.
  - by apply elem_of_nil in Hd.
  - rewrite mergeAdditive_cons. apply elem_of_cons in Hd as [->|Hd].
    + apply mergeAdditive_keeps_ids, pushIfAbsent_has_id.
    + by apply IH.
Qed.

(** A bundle whose ids are all known locally changes nothing. *)
Lemma mergeAdditive_known incoming : ∀ local,
  (∀ d, d ∈ incoming → idOf d ∈ idOf <$> local) →
  mergeAdditive local incoming = local.
Proof.
  induction incoming as [|x incoming IH]; intros local Hall; [done|].
  rewrite mergeAdditive_cons, pushIfAbsent_present by (apply Hall; set_solver).
  apply IH. intros d Hd. apply Hall. set_solver.
Qed.

Lemma mergeAdditive_idempotent local incoming :
  mergeAdditive (mergeAdditive local incoming) incoming = mergeAdditive local incoming.
Proof. apply mergeAdditive_known. intros d. apply mergeAdditive_takes_ids. Qed.

Lemma mergeAdditive_member local incoming x :
  x ∈ mergeAdditive local incoming → x ∈ local ∨ x ∈ incoming.
Proof.
  destruct (mergeAdditive_extends incoming local) as (extra & -> & Hsub).
  intros [?|?]%elem_of_app; [by left|right].
  by eapply sublist_subseteq. 
Qed.

Lemma mergeAdditive_distinct incoming : ∀ local,
  NoDup (idOf <$> local) → NoDup (idOf <$> mergeAdditive local incoming).
Proof.
  induction incoming as [|d incoming IH]; intros local Hnd; [done|].
  rewrite mergeAdditive_cons. apply IH.
  destruct (decide (idOf d ∈ idOf <$> local)) as [Hin|Hout].
  - by rewrite pushIfAbsent_present.
  - rewrite pushIfAbsent_absent, fmap_app by done. apply NoDup_app.
    split_and!; [done| |apply NoDup_singleton].
    intros k Hk ->%list_elem_of_singleton. done.
Qed.

End Additive.

(** ** The replacing loop of courses *)

Section Courses.
Implicit Types (M local incoming : list Course) (c b : Course) (k : string).

Lemma findIndex_id_absent M k :
  k ∉ idOf <$> M → findIndex (λ existing : Course, idOf existing = k) M = None.
Proof. intros Hout. by apply findIndex_None, no_match_iff. Qed.

Lemma findIndex_id_present M k :
  k ∈ idOf <$> M →
  ∃ i x, findIndex (λ existing : Course, idOf existing = k) M = Some i ∧
         M !! i = Some x ∧ idOf x = k ∧ (k ∉ idOf <$> take i M).
Proof.
  intros Hin. destruct (findIndex _ M) as [i|] eqn:Hf.
  - apply findIndex_Some in Hf as (x & Hi & Hx & Hleast).
    exists i, x. split_and!; [done..|].
    intros (y & Hy & [j [Hj Hlt]]%elem_of_take)%list_elem_of_fmap.
    by apply (Hleast j y).
  - by apply findIndex_None, no_match_iff in Hf.
Qed.

(** The position that [findIndex] returns depends on the ids only. *)
Lemma findIndex_id_ext M M' k :
  idOf <$> M = idOf <$> M' →
  findIndex (λ existing : Course, idOf existing = k) M
  = findIndex (λ existing : Course, idOf existing = k) M'.
Proof.
  intros Hids.
  assert (Hfm : ∀ N : list Course,
    findIndex (λ existing : Course, idOf existing = k) N
    = findIndex (λ i : string, i = k) (idOf <$> N)).
  { intros N. unfold findIndex. rewrite list_find_fmap.
    by destruct (list_find _ N) as [[??]|]. }
  by rewrite !Hfm, Hids.
Qed.

Lemma findIndex_id_snoc M c :
  idOf c ∉ idOf <$> M →
  findIndex (λ existing : Course, idOf existing = idOf c) (M ++ [c]) = Some (length M).
Proof.
  intros Hout. apply findIndex_Some. exists c. split_and!.
  - by apply list_lookup_middle.
  - done.
  - intros j y Hj Hlt Hy. apply Hout. rewrite <- Hy.
    rewrite lookup_app_l in Hj by done.
    apply list_elem_of_fmap_2. by eapply list_elem_of_lookup_2.
Qed.

Lemma findIndex_id_app_l M N k i :
  findIndex (λ existing : Course, idOf existing = k) M = Some i →
  findIndex (λ existing : Course, idOf existing = k) (M ++ N) = Some i.
Proof.
  unfold findIndex. intros ([j x] & Hf & ->)%fmap_Some.
  by rewrite (list_find_app_l _ M N j x Hf).
Qed.

Lemma ids_insert_same M i x c :
  M !! i = Some x → idOf x = idOf c → idOf <$> <[i:=c]> M = idOf <$> M.
Proof.
  intros Hi Hx. rewrite list_fmap_insert. apply list_insert_id.
  by rewrite list_lookup_fmap, Hi, <- Hx.
Qed.

Lemma pushOrReplace_absent M c :
  idOf c ∉ idOf <$> M → pushOrReplace M c = M ++ [c].
Proof. intros Hout. unfold pushOrReplace. by rewrite findIndex_id_absent. Qed.

(** A known id is replaced at its first position. *)
Lemma pushOrReplace_present M c :
  idOf c ∈ idOf <$> M →
  ∃ i x, M !! i = Some x ∧ idOf x = idOf c ∧
         (idOf c ∉ idOf <$> take i M) ∧
         pushOrReplace M c = <[i:=c]> M.
Proof.
  intros (i & x & Hf & Hi & Hx & Hleast)%findIndex_id_present.
  exists i, x. unfold pushOrReplace. by rewrite Hf.
Qed.

Lemma pushOrReplace_ids_present M c :
  idOf c ∈ idOf <$> M → idOf <$> pushOrReplace M c = idOf <$> M.
Proof.
  intros (i & x & Hi & Hx & _ & ->)%pushOrReplace_present.
  by eapply ids_insert_same.
Qed.

Lemma pushOrReplace_ids_absent M c :
  idOf c ∉ idOf <$> M → idOf <$> pushOrReplace M c = (idOf <$> M) ++ [idOf c].
Proof. intros Hout. by rewrite pushOrReplace_absent, fmap_app. Qed.

Lemma pushOrReplace_has_id M c : idOf c ∈ idOf <$> pushOrReplace M c.
Proof.
  destruct (decide (idOf c ∈ idOf <$> M)) as [Hin|Hout].
  - by rewrite pushOrReplace_ids_present.
  - rewrite pushOrReplace_ids_absent, elem_of_app by done.
    right. by apply list_elem_of_singleton.
Qed.

Lemma pushOrReplace_keeps_ids M c k :
  k ∈ idOf <$> M → k ∈ idOf <$> pushOrReplace M c.
Proof.
  intros Hk. destruct (decide (idOf c ∈ idOf <$> M)) as [Hin|Hout].
  - by rewrite pushOrReplace_ids_present.
  - rewrite pushOrReplace_ids_absent, elem_of_app by done. by left.
Qed.

(** Of two incoming courses with one id the later one wins. *)
Lemma pushOrReplace_absorb M c c' :
  idOf c = idOf c' → pushOrReplace (pushOrReplace M c) c' = pushOrReplace M c'.
Proof.
  intros Hid. destruct (decide (idOf c ∈ idOf <$> M)) as [Hin|Hout].
  - destruct (findIndex_id_present M _ Hin) as (i & x & Hf & Hi & Hx & _).
    unfold pushOrReplace at 2. rewrite Hf.
    unfold pushOrReplace. rewrite <- Hid.
    rewrite (findIndex_id_ext (<[i:=c]> M) M) by by eapply ids_insert_same.
    rewrite Hf. apply list_insert_insert_eq.
  - rewrite (pushOrReplace_absent M c) by done.
    rewrite (pushOrReplace_absent M c') by by rewrite <- Hid.
    unfold pushOrReplace. rewrite <- Hid, findIndex_id_snoc by done.
    rewrite insert_app_r_alt by done. by rewrite Nat.sub_diag.
Qed.

(** Incoming courses with different ids do not disturb each other, once
    the id of one of them is known. *)
Lemma pushOrReplace_commute M c b :
  idOf b ∈ idOf <$> M → idOf b ≠ idOf c →
  pushOrReplace (pushOrReplace M c) b = pushOrReplace (pushOrReplace M b) c.
Proof.
  intros Hb Hne.
  destruct (findIndex_id_present M _ Hb) as (i & x & Hfb & Hi & Hx & _).
  assert (Hidsb : idOf <$> <[i:=b]> M = idOf <$> M) by by eapply ids_insert_same.
  destruct (decide (idOf c ∈ idOf <$> M)) as [Hin|Hout].
  - destruct (findIndex_id_present M _ Hin) as (j & y & Hfc & Hj & Hy & _).
    assert (i ≠ j) by (intros ->; congruence).
    assert (Hidsc : idOf <$> <[j:=c]> M = idOf <$> M) by by eapply ids_insert_same.
    unfold pushOrReplace at 2 4. rewrite Hfb, Hfc.
    unfold pushOrReplace.
    rewrite (findIndex_id_ext (<[j:=c]> M) M) by done.
    rewrite (findIndex_id_ext (<[i:=b]> M) M) by done.
    rewrite Hfb, Hfc. by apply list_insert_insert_ne.
  - rewrite (pushOrReplace_absent M c) by done.
    unfold pushOrReplace at 3. rewrite Hfb.
    rewrite (pushOrReplace_absent (<[i:=b]> M) c) by by rewrite Hidsb.
    unfold pushOrReplace. rewrite (findIndex_id_app_l M [c] _ i Hfb).
    apply insert_app_l. by eapply lookup_lt_Some.
Qed.

Lemma mergeCourses_cons local c incoming :
  mergeCourses local (c :: incoming) = mergeCourses (pushOrReplace local c) incoming.
Proof. done. Qed.

Lemma mergeCourses_snoc local incoming c :
  mergeCourses local (incoming ++ [c]) = pushOrReplace (mergeCourses local incoming) c.
Proof. unfold mergeCourses. by rewrite foldl_snoc. Qed.

Lemma mergeCourses_keeps_ids incoming : ∀ local k,
  k ∈ idOf <$> local → k ∈ idOf <$> mergeCourses local incoming.
Proof.
  induction incoming as [|c incoming IH]; intros local k Hk; [done|].
  rewrite mergeCourses_cons. by apply IH, pushOrReplace_keeps_ids.
Qed.

Lemma mergeCourses_takes_ids incoming : ∀ local c,
  c ∈ incoming → idOf c ∈ idOf <$> mergeCourses local incoming.
Proof.
  induction incoming as [|x incoming IH]; intros local c Hc.
  - by apply elem_of_nil in Hc.
  - rewrite mergeCourses_cons. apply elem_of_cons in Hc as [->|Hc].
    + apply mergeCourses_keeps_ids, pushOrReplace_has_id.
    + by apply IH.
Qed.

(** Replaying a loop whose ids are all known: a course [c] merged before
    the loop has no effect on what merging [c] after the loop gives. *)
Lemma mergeCourses_replay incoming : ∀ M c,
  (∀ b, b ∈ incoming → idOf b ∈ idOf <$> M) →
  pushOrReplace (mergeCourses (pushOrReplace M c) incoming) c
  = pushOrReplace (mergeCourses M incoming) c.
Proof.
  induction incoming as [|b incoming IH]; intros M c Hknown.
  - simpl. by apply pushOrReplace_absorb.
  - rewrite !mergeCourses_cons.
    assert (Hb : idOf b ∈ idOf <$> M) by (apply Hknown; by left).
    destruct (decide (idOf b = idOf c)) as [Heq|Hne].
    + rewrite pushOrReplace_absorb by done. done.
    + rewrite pushOrReplace_commute by done. apply IH.
      intros b' Hb'. rewrite pushOrReplace_ids_present by done.
      apply Hknown. by right.
Qed.

Lemma mergeCourses_idempotent local incoming :
  mergeCourses (mergeCourses local incoming) incoming = mergeCourses local incoming.
Proof.
  induction incoming as [|c incoming IH] using rev_ind; [done|].
  rewrite !mergeCourses_snoc.
  rewrite mergeCourses_replay by (intros b; apply mergeCourses_takes_ids).
  by rewrite IH.
Qed.

(** One step leaves every slot alone or writes the incoming course over
    a course with the same id. *)
Lemma pushOrReplace_slot M c i x :
  M !! i = Some x →
  ∃ y, pushOrReplace M c !! i = Some y ∧ idOf y = idOf x ∧ (y = x ∨ y = c).
Proof.
  intros Hi. destruct (decide (idOf c ∈ idOf <$> M)) as [Hin|Hout].
  - destruct (pushOrReplace_present M c Hin) as (j & z & Hj & Hz & _ & ->).
    destruct (decide (j = i)) as [->|Hne].
    + exists c. rewrite list_lookup_insert_eq by by eapply lookup_lt_Some.
      split_and!; [done|congruence|by right].
    + exists x. rewrite list_lookup_insert_ne by done. split_and!; [done|done|by left].
  - rewrite pushOrReplace_absent by done. exists x.
    rewrite lookup_app_l by by eapply lookup_lt_Some.
    split_and!; [done|done|by left].
Qed.

Lemma mergeCourses_slot incoming : ∀ local i x,
  local !! i = Some x →
  ∃ y, mergeCourses local incoming !! i = Some y ∧ idOf y = idOf x ∧
       (y = x ∨ y ∈ incoming).
Proof.
  induction incoming as [|c incoming IH]; intros local i x Hi.
  - exists x. split_and!; [done|done|by left].
  - rewrite mergeCourses_cons.
    destruct (pushOrReplace_slot local c i x Hi) as (y & Hy & Hyid & Hcase).
    destruct (IH _ i y Hy) as (z & Hz & Hzid & Hzcase).
    exists z. split_and!; [done|congruence|].
    destruct Hzcase as [->|Hz']; [|right; by right].
    destruct Hcase as [-> | ->]; [by left|right; by left].
Qed.

(** The ids of the local courses stay in their slots; the ids that follow
    them are new. *)
Lemma mergeCourses_ids incoming : ∀ local,
  ∃ new, idOf <$> mergeCourses local incoming = (idOf <$> local) ++ new ∧
         ∀ k, k ∈ new → k ∉ idOf <$> local.
Proof.
  induction incoming as [|c incoming IH]; intros local.
  - exists []. rewrite app_nil_r. split; [done|]. by intros k ?%elem_of_nil.
  - rewrite mergeCourses_cons.
    destruct (IH (pushOrReplace local c)) as (new & -> & Hnew).
    destruct (decide (idOf c ∈ idOf <$> local)) as [Hin|Hout].
    + rewrite pushOrReplace_ids_present in * by done. by exists new.
    + rewrite pushOrReplace_ids_absent in * by done. exists (idOf c :: new).
      rewrite <- app_assoc. split; [done|].
      intros k [->|Hk]%elem_of_cons; [done|].
      intros Hin. apply (Hnew k Hk). rewrite elem_of_app. by left.
Qed.

(** Last import wins: the first local course with an id that the bundle
    uses is replaced by the last incoming course with that id. *)
Lemma mergeCourses_replaces incoming : ∀ local i x,
  local !! i = Some x → (idOf x ∉ idOf <$> take i local) →
  idOf x ∈ idOf <$> incoming →
  ∃ before y after,
    incoming = before ++ y :: after ∧ idOf y = idOf x ∧
    (idOf x ∉ idOf <$> after) ∧ mergeCourses local incoming !! i = Some y.
Proof.
  induction incoming as [|c incoming IH] using rev_ind; intros local i x Hi Hfirst Hin.
  - by apply elem_of_nil in Hin.
  - rewrite mergeCourses_snoc. set (M := mergeCourses local incoming).
    destruct (mergeCourses_slot incoming local i x Hi) as (y0 & Hy0 & Hy0id & _).
    fold M in Hy0.
    assert (Hlt : i < length local) by by eapply lookup_lt_Some.
    assert (HfirstM : idOf x ∉ idOf <$> take i M).
    { destruct (mergeCourses_ids incoming local) as (new & Hids & _). fold M in Hids.
      rewrite fmap_take, Hids, take_app_le, <- fmap_take by (rewrite length_fmap; lia).
      done. }
    destruct (decide (idOf c = idOf x)) as [Heq|Hne].
    + assert (HcM : idOf c ∈ idOf <$> M).
      { rewrite Heq, <- Hy0id. apply list_elem_of_fmap_2.
        by eapply list_elem_of_lookup_2. }
      destruct (pushOrReplace_present M c HcM) as (j & z & Hj & Hz & Hleast & ->).
      assert (j = i) as ->.
      { destruct (Nat.lt_total j i) as [Hji|[?|Hij]]; [|done|].
        - exfalso. apply HfirstM. rewrite <- Heq, <- Hz.
          apply list_elem_of_fmap_2. rewrite elem_of_take. eauto.
        - exfalso. apply Hleast. rewrite Heq, <- Hy0id.
          apply list_elem_of_fmap_2. rewrite elem_of_take. eauto. }
      exists incoming, c, []. split_and!; [done|done|by intros ?%elem_of_nil|].
      apply list_lookup_insert_eq. by eapply lookup_lt_Some.
    + rewrite fmap_app, elem_of_app in Hin. destruct Hin as [Hin|Hin];
        [|apply list_elem_of_singleton in Hin; by destruct Hne].
      destruct (IH local i x Hi Hfirst Hin) as (before & y & after & -> & Hy & Hafter & HyM).
      fold M in HyM.
      destruct (pushOrReplace_slot M c i y HyM) as (y' & Hy' & Hy'id & [-> | ->]);
        [|destruct Hne; congruence].
      exists before, y, (after ++ [c]). rewrite <- app_assoc. split_and!; [done|done| |done].
      rewrite fmap_app, elem_of_app. intros [?|Hc%list_elem_of_singleton]; [done|].
      by destruct Hne.
Qed.

Lemma mergeCourses_member incoming : ∀ local x,
  x ∈ mergeCourses local incoming → x ∈ local ∨ x ∈ incoming.
Proof.
  induction incoming as [|c incoming IH]; intros local x Hx; [by left|].
  rewrite mergeCourses_cons in Hx. apply IH in Hx as [Hx|Hx]; [|right; by right].
  destruct (decide (idOf c ∈ idOf <$> local)) as [Hin|Hout].
  - destruct (pushOrReplace_present local c Hin) as (j & z & Hj & _ & _ & Hstep).
    rewrite Hstep in Hx. apply list_elem_of_lookup in Hx as [i Hi].
    apply list_lookup_insert_Some in Hi as [(-> & -> & _)|[_ Hi]].
    + right; by left.
    + left. by eapply list_elem_of_lookup_2.
  - rewrite pushOrReplace_absent in Hx by done.
    apply elem_of_app in Hx as [Hx|Hx]; [by left|].
    apply list_elem_of_singleton in Hx as ->. right; by left.
Qed.

Lemma mergeCourses_distinct incoming : ∀ local,
  NoDup (idOf <$> local) → NoDup (idOf <$> mergeCourses local incoming).
Proof.
  induction incoming as [|c incoming IH]; intros local Hnd; [done|].
  rewrite mergeCourses_cons. apply IH.
  destruct (decide (idOf c ∈ idOf <$> local)) as [Hin|Hout].
  - by rewrite pushOrReplace_ids_present.
  - rewrite pushOrReplace_ids_absent by done. apply NoDup_app.
    split_and!; [done| |apply NoDup_singleton].
    intros k Hk ->%list_elem_of_singleton. done.
Qed.

End Courses.

(** ** The claims about merge, import and deletion *)

(** C2, amended.  Merging a bundle twice gives the same store as merging
    it once, for decks, folders and history and for courses as well.  In
    the loops over decks, folders and history an incoming record whose id
    is already in the merged list is dropped and any other is appended; in
    the loop over courses an incoming course whose id is already in the
    merged list is written over the first course with that id, and any
    other is appended. *)
Theorem merge_twice_as_once :
  (∀ st ds cs hs fs,
      mergeData ds cs hs fs (mergeData ds cs hs fs st) = mergeData ds cs hs fs st) ∧
  (∀ st ds cs hs fs (d : Deck),
      let m := decks (mergeData ds cs hs fs st) in
      decks (mergeData (ds ++ [d]) cs hs fs st)
      = if decide (d_id d ∈ d_id <$> m) then m else m ++ [d]) ∧
  (∀ st ds cs hs fs (f : Folder),
      let m := folders (mergeData ds cs hs fs st) in
      folders (mergeData ds cs hs (fs ++ [f]) st)
      = if decide (f_id f ∈ f_id <$> m) then m else m ++ [f]) ∧
  (∀ st ds cs hs fs (h : HistoryEntry),
      let m := history (mergeData ds cs hs fs st) in
      history (mergeData ds cs (hs ++ [h]) fs st)
      = if decide (h_id h ∈ h_id <$> m) then m else m ++ [h]) ∧
  (∀ st ds cs hs fs (c : Course),
      let m := courses (mergeData ds cs hs fs st) in
      let m' := courses (mergeData ds (cs ++ [c]) hs fs st) in
      (c_id c ∉ c_id <$> m → m' = m ++ [c]) ∧
      (c_id c ∈ c_id <$> m →
         ∃ i x, m !! i = Some x ∧ c_id x = c_id c ∧
                (c_id c ∉ c_id <$> take i m) ∧ m' = <[i:=c]> m)).
Proof.
  split_and!.
  - intros st ds cs hs fs. unfold mergeData. simpl.
    by rewrite !mergeAdditive_idempotent, mergeCourses_idempotent.
  - intros st ds cs hs fs d. simpl. rewrite mergeAdditive_snoc. case_decide.
    + by apply pushIfAbsent_present.
    + by apply pushIfAbsent_absent.
  - intros st ds cs hs fs f. simpl. rewrite mergeAdditive_snoc. case_decide.
    + by apply pushIfAbsent_present.
    + by apply pushIfAbsent_absent.
  - intros st ds cs hs fs h. simpl. rewrite mergeAdditive_snoc. case_decide.
    + by apply pushIfAbsent_present.
    + by apply pushIfAbsent_absent.
  - intros st ds cs hs fs c. simpl. rewrite mergeCourses_snoc. split.
    + apply pushOrReplace_absent.
    + apply pushOrReplace_present.
Qed.

Lemma merge_twice_as_once_witness :
  courses (mergeData [] [Samples.course_incoming] [] [] Samples.store_anna)
    = [Samples.course_incoming] ∧
  decks (mergeData [Samples.deck_theirs] [] [] [] Samples.store_anna)
    = decks Samples.store_anna.
Proof.
  destruct merge_twice_as_once as (_ & Hdecks & _ & _ & Hcourses). split.
  - destruct (Hcourses Samples.store_anna [] [] [] [] Samples.course_incoming)
      as [_ Hrep].
    destruct Hrep as (i & x & Hi & _ & _ & Hm).
    + apply (bool_decide_unpack _). vm_compute. reflexivity.
    + destruct i as [|i]; [exact Hm|]. destruct i; discriminate Hi.
  - exact (Hdecks Samples.store_anna [] [] [] [] Samples.deck_theirs).
Defined.

(** C2 as stated fails in its part about courses: a second merge of the
    same bundle writes the same courses over the same slots, so the course
    collection after two merges is the one after a single merge. *)
Lemma course_merge_idempotent_too :
  courses (mergeData [] [Samples.course_incoming] [] []
             (mergeData [] [Samples.course_incoming] [] [] Samples.store_anna))
    = courses (mergeData [] [Samples.course_incoming] [] [] Samples.store_anna) ∧
  ¬ (∃ st ds cs hs fs,
       courses (mergeData ds cs hs fs (mergeData ds cs hs fs st))
       ≠ courses (mergeData ds cs hs fs st)).
Proof.
  split.
  - vm_compute. reflexivity.
  - intros (st & ds & cs & hs & fs & Hne). apply Hne. simpl.
    apply mergeCourses_idempotent.
Qed.

(** C10.  After a merge every id of each of the four local collections is
    still there; the local decks, folders and history entries are an
    unchanged prefix of the merged collections; a local course keeps its
    slot and its id, and is either unchanged or an incoming course with
    that id. *)
Theorem merge_keeps_local_data (st : AppState) (ds : list Deck) (cs : list Course)
    (hs : list HistoryEntry) (fs : list Folder) :
  let st' := mergeData ds cs hs fs st in
  (d_id <$> decks st) ⊆ (d_id <$> decks st') ∧
  (c_id <$> courses st) ⊆ (c_id <$> courses st') ∧
  (f_id <$> folders st) ⊆ (f_id <$> folders st') ∧
  (h_id <$> history st) ⊆ (h_id <$> history st') ∧
  (∃ extra, decks st' = decks st ++ extra) ∧
  (∃ extra, folders st' = folders st ++ extra) ∧
  (∃ extra, history st' = history st ++ extra) ∧
  (∀ i x, courses st !! i = Some x →
     ∃ y, courses st' !! i = Some y ∧ c_id y = c_id x ∧
          (y = x ∨ y ∈ cs) ∧ (c_id x ∉ c_id <$> cs → y = x)).
Proof.
  simpl. split_and!.
  - intros k. apply mergeAdditive_keeps_ids.
  - intros k. apply mergeCourses_keeps_ids.
  - intros k. apply mergeAdditive_keeps_ids.
  - intros k. apply mergeAdditive_keeps_ids.
  - destruct (mergeAdditive_extends ds (decks st)) as (extra & ? & _). by exists extra.
  - destruct (mergeAdditive_extends fs (folders st)) as (extra & ? & _). by exists extra.
  - destruct (mergeAdditive_extends hs (history st)) as (extra & ? & _). by exists extra.
  - intros i x Hi. destruct (mergeCourses_slot cs _ i x Hi) as (y & Hy & Hid & Hcase).
    exists y. split_and!; [done..|]. intros Hout.
    destruct Hcase as [?|Hin]; [done|]. exfalso. apply Hout.
    change (c_id x) with (idOf x). rewrite <- Hid. by apply list_elem_of_fmap_2.
Qed.

Lemma merge_keeps_local_data_witness :
  ∃ y, courses (mergeData [] [Samples.course_incoming] [] [] Samples.store_anna) !! 0
         = Some y ∧ c_id y = "c1"%string.
Proof.
  destruct (merge_keeps_local_data Samples.store_anna [] [Samples.course_incoming] [] [])
    as (_ & _ & _ & _ & _ & _ & _ & Hslot).
  destruct (Hslot 0 Samples.course_local) as (y & Hy & Hid & _).
  - reflexivity.
  - exists y. split; [exact Hy|exact Hid].
Defined.

(** *** Single deck import *)

Lemma truthy_Some (v : string) : truthy (Some v) = true ↔ v ≠ ""%string.
Proof.
  simpl. rewrite negb_true_iff, bool_decide_eq_false. done.
Qed.

Lemma handleImportDeck_decks st d ftype u1 u2 now :
  d_id d ≠ ""%string → d_name d ≠ ""%string → ftype ≠ Some "course_share"%string →
  ∃ d', decks (handleImportDeck d ftype u1 u2 now st).1 = decks st ++ [d'] ∧
        d_name d' = d_name d ∧ d_cards d' = d_cards d ∧ d_createdAt d' = d_createdAt d ∧
        d_id d' = (if decide (d_id d ∈ d_id <$> decks st) then u1 else d_id d).
Proof.
  intros Hid Hname Htype. unfold handleImportDeck.
  apply truthy_Some in Hid as ->. apply truthy_Some in Hname as ->. simpl.
  rewrite bool_decide_eq_false_2 by done.
  set (d1 := if bool_decide _ then withId d u1 else d).
  set (d2 := match currentUser st with Some u => withAuthor d1 (u_id u) | None => d1 end).
  exists d2. split.
  { unfold addToHistory. simpl. by destruct (currentUser st). }
  assert (Hd2 : d_id d2 = d_id d1 ∧ d_name d2 = d_name d1 ∧ d_cards d2 = d_cards d1
                ∧ d_createdAt d2 = d_createdAt d1).
  { unfold d2. by destruct (currentUser st). }
  destruct Hd2 as (-> & -> & -> & ->). unfold d1.
  case_bool_decide as Hex; case_decide as Hin; try done.
  - exfalso. apply Hin. apply Exists_exists in Hex as (x & Hx & <-).
    by apply list_elem_of_fmap_2.
  - exfalso. apply Hex. apply list_elem_of_fmap in Hin as (x & Hx & Hin).
    apply Exists_exists. by exists x.
Qed.

(** C5, amended.  The profile merge assigns no id: every record of a
    merged collection is a local record or an incoming record as it came,
    and ids that were pairwise distinct locally stay so.  An incoming
    deck, folder or history entry with a known id is dropped: the local
    records stay as they are, and what is appended to them are incoming
    records, in their order, whose ids are new to the local collection.
    An incoming course with a known id takes the place of the local one:
    the ids of the local courses stay in their slots, the ids after them
    are new, and the first local course with an id that the bundle uses
    is replaced by the last incoming course with that id.  After the merge
    the id of every incoming record is in its collection.
    Only the import of a single deck gives an incoming deck whose id is
    already used the id drawn from [crypto.randomUUID()] before appending
    it, and keeps its id otherwise; the deck ids then stay pairwise
    distinct as long as the drawn id is not in use. *)
Theorem import_collision_handling :
  (∀ st ds cs hs fs,
      let st' := mergeData ds cs hs fs st in
      (∀ x, x ∈ decks st' → x ∈ decks st ∨ x ∈ ds) ∧
      (∀ x, x ∈ courses st' → x ∈ courses st ∨ x ∈ cs) ∧
      (∀ x, x ∈ folders st' → x ∈ folders st ∨ x ∈ fs) ∧
      (∀ x, x ∈ history st' → x ∈ history st ∨ x ∈ hs) ∧
      (NoDup (d_id <$> decks st) → NoDup (d_id <$> decks st')) ∧
      (NoDup (c_id <$> courses st) → NoDup (c_id <$> courses st')) ∧
      (NoDup (f_id <$> folders st) → NoDup (f_id <$> folders st')) ∧
      (NoDup (h_id <$> history st) → NoDup (h_id <$> history st')) ∧
      (∃ extra, decks st' = decks st ++ extra ∧ sublist extra ds ∧
                ∀ x, x ∈ extra → d_id x ∉ d_id <$> decks st) ∧
      (∃ extra, folders st' = folders st ++ extra ∧ sublist extra fs ∧
                ∀ x, x ∈ extra → f_id x ∉ f_id <$> folders st) ∧
      (∃ extra, history st' = history st ++ extra ∧ sublist extra hs ∧
                ∀ x, x ∈ extra → h_id x ∉ h_id <$> history st) ∧
      (∃ new, c_id <$> courses st' = (c_id <$> courses st) ++ new ∧
              ∀ k, k ∈ new → k ∉ c_id <$> courses st) ∧
      (∀ i x, courses st !! i = Some x → (c_id x ∉ c_id <$> take i (courses st)) →
         c_id x ∈ c_id <$> cs →
         ∃ before y after,
           cs = before ++ y :: after ∧ c_id y = c_id x ∧
           (c_id x ∉ c_id <$> after) ∧ courses st' !! i = Some y) ∧
      (∀ x, x ∈ ds → d_id x ∈ d_id <$> decks st') ∧
      (∀ x, x ∈ cs → c_id x ∈ c_id <$> courses st') ∧
      (∀ x, x ∈ fs → f_id x ∈ f_id <$> folders st') ∧
      (∀ x, x ∈ hs → h_id x ∈ h_id <$> history st')) ∧
  (∀ st d ftype deckUuid entryUuid now,
      d_id d ≠ ""%string → d_name d ≠ ""%string → ftype ≠ Some "course_share"%string →
      ∃ d', decks (handleImportDeck d ftype deckUuid entryUuid now st).1
              = decks st ++ [d'] ∧
            d_name d' = d_name d ∧ d_cards d' = d_cards d ∧
            d_createdAt d' = d_createdAt d ∧
            (d_id d ∈ d_id <$> decks st → d_id d' = deckUuid) ∧
            (d_id d ∉ d_id <$> decks st → d_id d' = d_id d) ∧
            (NoDup (d_id <$> decks st) → deckUuid ∉ d_id <$> decks st →
               NoDup (d_id <$> decks st ++ [d']))).
Proof.
  split.
  - intros st ds cs hs fs. simpl. split_and!.
    + intros x. apply mergeAdditive_member.
    + intros x. apply mergeCourses_member.
    + intros x. apply mergeAdditive_member.
    + intros x. apply mergeAdditive_member.
    + apply mergeAdditive_distinct.
    + apply mergeCourses_distinct.
    + apply mergeAdditive_distinct.
    + apply mergeAdditive_distinct.
    + apply mergeAdditive_adds_new.
    + apply mergeAdditive_adds_new.
    + apply mergeAdditive_adds_new.
    + apply mergeCourses_ids.
    + intros i x. apply mergeCourses_replaces.
    + intros x. apply mergeAdditive_takes_ids.
    + intros x. apply mergeCourses_takes_ids.
    + intros x. apply mergeAdditive_takes_ids.
    + intros x. apply mergeAdditive_takes_ids.
  - intros st d ftype u1 u2 now Hid Hname Htype.
    destruct (handleImportDeck_decks st d ftype u1 u2 now Hid Hname Htype)
      as (d' & Hdecks & ? & ? & ? & Hnew).
    exists d'. split_and!; [done..| | |].
    + intros Hin. rewrite Hnew. by case_decide.
    + intros Hin. rewrite Hnew. by case_decide.
    + intros Hnd Hfresh. rewrite fmap_app. apply NoDup_app.
      split_and!; [done| |apply NoDup_singleton].
      intros k Hk ->%list_elem_of_singleton. simpl in Hk.
      rewrite Hnew in Hk. by case_decide.
Qed.

Lemma import_collision_handling_witness :
  (∃ d', decks (handleImportDeck Samples.deck_theirs None "fresh" "entry" 7
                  Samples.store_anna).1
           = decks Samples.store_anna ++ [d'] ∧ d_id d' = "fresh"%string) ∧
  courses (mergeData [Samples.deck_theirs] [Samples.course_incoming] [] []
             Samples.store_anna) !! 0 = Some Samples.course_incoming.
Proof.
  split.
  - destruct (proj2 import_collision_handling Samples.store_anna Samples.deck_theirs
                None "fresh"%string "entry"%string 7%Z) as (d' & Hd & _ & _ & _ & Hnew & _).
    + discriminate.
    + discriminate.
    + discriminate.
    + exists d'. split; [exact Hd|]. apply Hnew.
      apply (bool_decide_unpack _). vm_compute. reflexivity.
  - destruct (proj1 import_collision_handling Samples.store_anna [Samples.deck_theirs]
                [Samples.course_incoming] [] [])
      as (_ & _ & _ & _ & _ & _ & _ & _ & _ & _ & _ & _ & Hrep & _).
    destruct (Hrep 0 Samples.course_local eq_refl) as (before & y & after & Hcs & _ & _ & Hy).
    + simpl. apply not_elem_of_nil.
    + apply (bool_decide_unpack _). vm_compute. reflexivity.
    + destruct before as [|b before].
      * injection Hcs as <- _. exact Hy.
      * destruct before; discriminate Hcs.
Defined.

(** C5 as stated fails for the profile merge: the incoming deck [d1] meets
    the local deck [d1] and is dropped, the incoming course [c1] replaces
    the local course [c1] under the same id; neither gets another id. *)
Lemma merge_assigns_no_fresh_id :
  d_id Samples.deck_theirs ∈ d_id <$> decks Samples.store_anna ∧
  c_id Samples.course_incoming ∈ c_id <$> courses Samples.store_anna ∧
  decks (mergeData [Samples.deck_theirs] [Samples.course_incoming] [] []
           Samples.store_anna) = [Samples.deck_mine; Samples.deck_other] ∧
  courses (mergeData [Samples.deck_theirs] [Samples.course_incoming] [] []
             Samples.store_anna) = [Samples.course_incoming].
Proof.
  split_and!.
  - apply (bool_decide_unpack _). vm_compute. reflexivity.
  - apply (bool_decide_unpack _). vm_compute. reflexivity.
  - vm_compute. reflexivity.
  - vm_compute. reflexivity.
Qed.

(** C6.  When a shared-course file is imported by an active user, the
    course handed to the merge is the incoming course with the user's id
    appended to its [memberIds] if the user is neither its author nor
    among its members, and the incoming course unchanged otherwise. *)
Theorem shared_course_import_joins (st : AppState) (data : FileData) (u : User)
    (course : Course) (ds : list Deck) :
  currentUser st = Some u →
  data_type data = Some "course_share"%string →
  data_course data = Some course →
  data_decks data = Some ds →
  ∃ courseToImport,
    processProfileFile data true st
      = (mergeData ds [courseToImport] [] [] st, CourseImported) ∧
    c_id courseToImport = c_id course ∧
    c_name courseToImport = c_name course ∧
    c_description courseToImport = c_description course ∧
    c_authorId courseToImport = c_authorId course ∧
    c_deckIds courseToImport = c_deckIds course ∧
    c_createdAt courseToImport = c_createdAt course ∧
    (u_id u ∉ c_memberIds course → c_authorId course ≠ u_id u →
       c_memberIds courseToImport = c_memberIds course ++ [u_id u]) ∧
    (u_id u ∈ c_memberIds course ∨ c_authorId course = u_id u →
       courseToImport = course).
Proof.
  intros Hu Htype Hcourse Hdecks.
  exists (if mustJoin u course then pushMember course (u_id u) else course). split.
  - unfold processProfileFile. rewrite Htype, Hcourse, Hdecks, Hu. simpl.
    by destruct (data_user data).
  - unfold mustJoin.
    case_bool_decide as Hmem; case_bool_decide as Hauth; simpl;
      split_and!; try done; try (by intros [?|?]); by intros ??.
Qed.

Lemma shared_course_import_joins_witness :
  ∃ c, courses (processProfileFile Samples.share_file true Samples.store_anna).1 = [c] ∧
       c_memberIds c = ["anna"%string].
Proof.
  destruct (shared_course_import_joins Samples.store_anna Samples.share_file
              Samples.user_anna Samples.course_incoming [Samples.deck_theirs])
    as (c & Hrun & Hid & _ & _ & _ & _ & _ & Hjoin & _).
  - reflexivity.
  - reflexivity.
  - reflexivity.
  - reflexivity.
  - exists c. rewrite Hrun. simpl.
    assert (Hm : c_memberIds c = ["anna"%string]).
    { apply Hjoin.
      + apply (bool_decide_unpack _). vm_compute. reflexivity.
      + discriminate. }
    split; [|exact Hm].
    unfold mergeCourses, pushOrReplace. simpl.
    change (idOf c) with (c_id c). rewrite Hid. reflexivity.
Defined.

(** C7.  Deleting a deck removes every deck with that id and no other
    deck; each course and each folder keeps its place and its other
    fields, loses that id from its [deckIds], and keeps every other entry
    of its [deckIds] in order. *)
Theorem delete_deck_prunes_references (st : AppState) (deckId : string) :
  let st' := handleDeleteDeck deckId st in
  (deckId ∉ d_id <$> decks st') ∧
  (∀ d, d ∈ decks st' ↔ d ∈ decks st ∧ d_id d ≠ deckId) ∧
  sublist (decks st') (decks st) ∧
  length (courses st') = length (courses st) ∧
  length (folders st') = length (folders st) ∧
  (∀ i c, courses st !! i = Some c →
     ∃ c', courses st' !! i = Some c' ∧
           (deckId ∉ c_deckIds c') ∧
           (∀ x, x ≠ deckId → x ∈ c_deckIds c' ↔ x ∈ c_deckIds c) ∧
           c_deckIds c' = filter (λ x, x ≠ deckId) (c_deckIds c) ∧
           (deckId ∉ c_deckIds c → c' = c) ∧
           c_id c' = c_id c ∧ c_name c' = c_name c ∧
           c_description c' = c_description c ∧ c_authorId c' = c_authorId c ∧
           c_memberIds c' = c_memberIds c ∧ c_createdAt c' = c_createdAt c) ∧
  (∀ i f, folders st !! i = Some f →
     ∃ f', folders st' !! i = Some f' ∧
           (deckId ∉ f_deckIds f') ∧
           (∀ x, x ≠ deckId → x ∈ f_deckIds f' ↔ x ∈ f_deckIds f) ∧
           f_deckIds f' = filter (λ x, x ≠ deckId) (f_deckIds f) ∧
           (deckId ∉ f_deckIds f → f' = f) ∧
           f_id f' = f_id f ∧ f_name f' = f_name f ∧
           f_authorId f' = f_authorId f ∧ f_createdAt f' = f_createdAt f).
Proof.
  assert (Hfilter : ∀ l : list string,
    (deckId ∉ filter (λ x, x ≠ deckId) l) ∧
    (∀ x, x ≠ deckId → x ∈ filter (λ x, x ≠ deckId) l ↔ x ∈ l) ∧
    (deckId ∉ l → filter (λ x, x ≠ deckId) l = l)).
  { intros l. split_and!.
    - rewrite list_elem_of_filter. by intros [? _].
    - intros x Hx. rewrite list_elem_of_filter. tauto.
    - intros Hout. induction l as [|y l IH]; [done|].
      apply not_elem_of_cons in Hout as [Hy Hl].
      rewrite filter_cons_True by done. by rewrite IH. }
  simpl. split_and!.
  - intros (d & Hd & [Hne _]%list_elem_of_filter)%list_elem_of_fmap. done.
  - intros d. rewrite list_elem_of_filter. tauto.
  - apply sublist_filter.
  - by rewrite length_fmap.
  - by rewrite length_fmap.
  - intros i c Hi. exists (dropDeckFromCourse deckId c).
    rewrite list_lookup_fmap, Hi. destruct (Hfilter (c_deckIds c)) as (H1 & H2 & H3).
    simpl. split_and!; try done.
    intros Hout. destruct c. unfold dropDeckFromCourse. simpl in *. by rewrite H3.
  - intros i f Hi. exists (dropDeckFromFolder deckId f).
    rewrite list_lookup_fmap, Hi. destruct (Hfilter (f_deckIds f)) as (H1 & H2 & H3).
    simpl. split_and!; try done.
    intros Hout. destruct f. unfold dropDeckFromFolder. simpl in *. by rewrite H3.
Qed.

Lemma delete_deck_prunes_references_witness :
  ∃ c', courses (handleDeleteDeck "d1" Samples.store_anna) !! 0 = Some c' ∧
        c_deckIds c' = ["d2"%string].
Proof.
  destruct (delete_deck_prunes_references Samples.store_anna "d1")
    as (_ & _ & _ & _ & _ & Hc & _).
  destruct (Hc 0 Samples.course_local) as (c' & Hi & _ & _ & Hids & _).
  - reflexivity.
  - exists c'. split; [exact Hi|]. rewrite Hids. vm_compute. reflexivity.
Defined.

End StoreFacts.

(** * Facts about the card view and the session life cycle *)

Module StudyOpsFacts.
Import Study StudyOps StudyFacts.

(** ** The drag decision *)

Lemma Qle_bool_false (a b : Q) : Qle_bool a b = false ↔ (b < a)%Q.
Proof.
  rewrite <- not_true_iff_false, Qle_bool_iff. split.
  - apply Qnot_le_lt.
  - apply Qlt_not_le.
Qed.

(** X1.  A drag ends in a swipe to the right exactly when it went more than 100
    to the right, in a swipe to the left exactly when it went more than 100
    to the left, and in a swipe up exactly when it stayed within 100
    sideways and went more than 100 up; so the sideways direction wins over
    the upward one, and a drag within 100 sideways that did not go more
    than 100 up, such as any drag downwards, is no swipe. *)
Theorem drag_decision (x y : Q) :
  (handleDragEnd x y = Swiped RIGHT ↔ (100 < x)%Q) ∧
  (handleDragEnd x y = Swiped LEFT ↔ (x < -100)%Q) ∧
  (handleDragEnd x y = Swiped UP ↔ (-100 <= x)%Q ∧ (x <= 100)%Q ∧ (y < -100)%Q) ∧
  ((-100 <= x)%Q → (x <= 100)%Q → (-100 <= y)%Q →
     ∀ d, handleDragEnd x y ≠ Swiped d).
Proof.
  unfold handleDragEnd.
  destruct (Qle_bool x 100) eqn:Hx1; simpl.
  - apply Qle_bool_iff in Hx1.
    destruct (Qle_bool (Qopp 100) x) eqn:Hx2; simpl.
    + apply Qle_bool_iff in Hx2.
      destruct (Qle_bool (Qopp 100) y) eqn:Hy; simpl.
      * apply Qle_bool_iff in Hy.
        assert (Hno : ∀ d, (if negb (Qle_bool (Qabs x) 5) || negb (Qle_bool (Qabs y) 5)
                            then Flipped else Stayed) ≠ Swiped d).
        { intros d. by destruct (_ || _). }
        split_and!.
        -- split; [intros H; by apply Hno in H|]. intros H.
           exfalso. by apply (Qlt_not_le _ _ H).
        -- split; [intros H; by apply Hno in H|]. intros H.
           exfalso. by apply (Qlt_not_le _ _ H).
        -- split; [intros H; by apply Hno in H|]. intros (_ & _ & H).
           exfalso. by apply (Qlt_not_le _ _ H).
        -- intros _ _ _. apply Hno.
      * apply Qle_bool_false in Hy. split_and!.
        -- split; [done|]. intros H. exfalso. by apply (Qlt_not_le _ _ H).
        -- split; [done|]. intros H. exfalso. by apply (Qlt_not_le _ _ H).
        -- done.
        -- intros _ _ H. exfalso. by apply (Qlt_not_le _ _ Hy).
    + apply Qle_bool_false in Hx2. split_and!.
      * split; [done|]. intros H. exfalso. by apply (Qlt_not_le _ _ H).
      * done.
      * split; [done|]. intros (H & _). exfalso. by apply (Qlt_not_le _ _ Hx2).
      * intros H. exfalso. by apply (Qlt_not_le _ _ Hx2).
  - apply Qle_bool_false in Hx1. split_and!.
    + done.
    + split; [done|]. intros H. exfalso.
      apply (Qlt_irrefl x). eapply Qlt_trans; [exact H|].
      eapply Qlt_trans; [|exact Hx1]. reflexivity.
    + split; [done|]. intros (_ & H & _). exfalso. by apply (Qlt_not_le _ _ Hx1).
    + intros _ H. exfalso. by apply (Qlt_not_le _ _ Hx1).
Qed.

Lemma drag_decision_witness :
  handleDragEnd (150 # 1) (-300 # 1) = Swiped RIGHT ∧
  ∀ d, handleDragEnd (20 # 1) (250 # 1) ≠ Swiped d.
Proof.
  split.
  - apply (proj1 (drag_decision (150 # 1) (-300 # 1))). reflexivity.
  - apply (proj2 (proj2 (proj2 (drag_decision (20 # 1) (250 # 1))))); by vm_compute.
Defined.

(** ** Runs of swipes *)

Lemma swipe_balance d rnd s :
  correctCount (handleCardSwipe d rnd s) + length (studyQueue (handleCardSwipe d rnd s))
  = correctCount s + length (studyQueue s).
Proof.
  destruct s as [q h n]. unfold handleCardSwipe. simpl.
  destruct q as [|c rest]; [done|].
  destruct d; simpl; rewrite ?splice_in_length; lia.
Qed.

Lemma run_balance sw : ∀ s,
  correctCount (run_swipes sw s) + length (studyQueue (run_swipes sw s))
  = correctCount s + length (studyQueue s).
Proof.
  induction sw as [|e sw IH]; intros s; [done|].
  rewrite run_swipes_cons, IH. apply swipe_balance.
Qed.

(** X2.  Whatever is swiped, from whatever session, the correct-count and the
    length of the queue add up to the same number as before.  A session
    that starts on a non-empty queue with a correct-count of 0 therefore
    never shows the loading screen, and it shows the finished screen
    exactly when the correct-count has reached the number of cards it
    started with. *)
Theorem fresh_session_progress (sw : list (SwipeDirection * Q)) :
  (∀ s0 : Session,
     correctCount (run_swipes sw s0) + length (studyQueue (run_swipes sw s0))
     = correctCount s0 + length (studyQueue s0)) ∧
  (∀ (q : list StudyCard) (h : list Transcript),
     q ≠ [] →
     let s := run_swipes sw (mkSession q h 0) in
     correctCount s + length (studyQueue s) = length q ∧
     render s ≠ Loading ∧
     (render s = Finished ↔ correctCount s = length q)).
Proof.
  split; [apply run_balance|].
  intros q h Hq s. pose proof (run_balance sw (mkSession q h 0)) as Hbal.
  fold s in Hbal. simpl in Hbal. split; [done|].
  assert (0 < length q) by (destruct q; [done|simpl; lia]).
  unfold render. destruct (studyQueue s) as [|c rest] eqn:Hqs; simpl in *.
  - rewrite bool_decide_eq_true_2 by lia. simpl.
    split; [done|]. split; [lia|done].
  - split; [done|]. split; [done|lia].
Qed.

Lemma fresh_session_progress_witness :
  render (run_swipes [(RIGHT, 0%Q); (LEFT, 0%Q); (RIGHT, 0%Q); (RIGHT, 0%Q)]
            Samples.session_abc) = Finished.
Proof.
  destruct (proj2 (fresh_session_progress
                     [(RIGHT, 0%Q); (LEFT, 0%Q); (RIGHT, 0%Q); (RIGHT, 0%Q)])
              (studyQueue Samples.session_abc) []) as (_ & _ & Hfin).
  - discriminate.
  - apply Hfin. reflexivity.
Defined.

Lemma swipe_cards d rnd s :
  (sc_card <$> studyQueue (handleCardSwipe d rnd s)) ⊆+ (sc_card <$> studyQueue s) ∧
  (d ≠ RIGHT →
   sc_card <$> studyQueue (handleCardSwipe d rnd s) ≡ₚ sc_card <$> studyQueue s).
Proof.
  destruct s as [q h n]. unfold handleCardSwipe. simpl.
  destruct q as [|c rest]; [done|].
  destruct d; simpl; rewrite ?splice_in_perm; simpl.
  - split; [reflexivity|done].
  - split; [by apply submseteq_cons|]. by intros [].
  - split; [reflexivity|done].
Qed.

(** X3.  Swipes neither invent nor duplicate cards: after any run the cards of
    the queue, taken without their retry mark, are among the cards of the
    queue before the run, each at most as often as before; a LEFT or UP
    swipe keeps all of them. *)
Theorem swipes_keep_cards (sw : list (SwipeDirection * Q)) (s : Session) :
  (sc_card <$> studyQueue (run_swipes sw s)) ⊆+ (sc_card <$> studyQueue s) ∧
  (Forall (λ e, e.1 ≠ RIGHT) sw →
   sc_card <$> studyQueue (run_swipes sw s) ≡ₚ sc_card <$> studyQueue s).
Proof.
  revert s. induction sw as [|e sw IH]; intros s; [done|].
  rewrite run_swipes_cons. destruct (IH (handleCardSwipe e.1 e.2 s)) as [Hsub Hperm].
  destruct (swipe_cards e.1 e.2 s) as [Hsub1 Hperm1]. split.
  - by etrans.
  - intros [He Hsw]%Forall_cons. rewrite Hperm by done. by apply Hperm1.
Qed.

Lemma swipes_keep_cards_witness :
  sc_card <$> studyQueue (run_swipes [(LEFT, 0%Q); (UP, 0%Q)] Samples.session_abc)
  ≡ₚ sc_card <$> studyQueue Samples.session_abc.
Proof.
  apply (proj2 (swipes_keep_cards [(LEFT, 0%Q); (UP, 0%Q)] Samples.session_abc)).
  repeat constructor; discriminate.
Defined.

Lemma swipe_transcript d rnd s :
  ∃ new, sessionHistory (handleCardSwipe d rnd s) = sessionHistory s ++ new ∧
         length new ≤ 1 ∧
         correctCount (handleCardSwipe d rnd s)
         = correctCount s + length (filter (λ e, t_action e = RIGHT) new).
Proof.
  destruct s as [q h n]. unfold handleCardSwipe. simpl.
  destruct q as [|c rest].
  - exists []. simpl. rewrite app_nil_r. split_and!; [done|lia|lia].
  - destruct d; simpl; eexists; split_and!; try done; simpl; lia.
Qed.

(** X4.  The transcript is append-only under swipes: a run of swipes leaves the
    entries that were there in place and adds at most one entry per swipe,
    and the correct-count grows by the number of RIGHT entries added. *)
Theorem swipes_append_transcript (sw : list (SwipeDirection * Q)) (s : Session) :
  ∃ new, sessionHistory (run_swipes sw s) = sessionHistory s ++ new ∧
         length new ≤ length sw ∧
         correctCount (run_swipes sw s)
         = correctCount s + length (filter (λ e, t_action e = RIGHT) new).
Proof.
  revert s. induction sw as [|e sw IH]; intros s.
  - exists []. simpl. rewrite app_nil_r. split_and!; [done|lia|lia].
  - rewrite run_swipes_cons.
    destruct (IH (handleCardSwipe e.1 e.2 s)) as (new2 & -> & Hlen2 & ->).
    destruct (swipe_transcript e.1 e.2 s) as (new1 & -> & Hlen1 & ->).
    exists (new1 ++ new2). rewrite app_assoc, filter_app, !length_app.
    split_and!; [done|simpl; lia|lia].
Qed.

(** ** Saving and resuming a session *)

Lemma SESSION_KEY_inj deck deck' :
  SESSION_KEY deck = SESSION_KEY deck' → sd_id deck = sd_id deck'.
Proof. unfold SESSION_KEY. simpl. by intros [=]. Qed.

Section LifeCycle.
Variable shuffle : list StudyCard → list StudyCard.

(** X5.  A saved session with cards left in its queue is resumed as it was
    saved: queue, transcript and correct-count come back unchanged, and the
    session total is the saved one (or the queue length when the saved total
    is 0). *)
Theorem session_resumes (deck : SessionDeck) (ids : option (list string)) (s : Session)
    (total : nat) (storage : gmap string SavedSession) :
  studyQueue s ≠ [] →
  mountSession shuffle deck ids (persistSession deck s total storage)
  = (s, if decide (total = 0) then length (studyQueue s) else total).
Proof.
  intros Hq. unfold mountSession, persistSession. rewrite lookup_insert_eq. simpl.
  rewrite !(bool_decide_eq_true_2 (sd_id deck = sd_id deck)) by done.
  destruct s as [q h n]. simpl in *.
  destruct q as [|c q]; [done|]. simpl.
  f_equal. case_bool_decide; case_decide; done.
Qed.

(** X6.  A session saved with an empty queue is not resumed as it was: the
    queue is built anew from the deck while the saved transcript and the
    saved correct-count are taken over.  An undo of an entry without
    [insertedAt] (a RIGHT swipe) then puts the card of that entry in front
    of the whole new queue. *)
Theorem emptied_session_remount (deck : SessionDeck) (ids : option (list string))
    (s : Session) (total : nat) (storage : gmap string SavedSession) :
  studyQueue s = [] →
  let s' := (mountSession shuffle deck ids (persistSession deck s total storage)).1 in
  s' = {| studyQueue := shuffle (cardsToLearn deck ids);
          sessionHistory := sessionHistory s;
          correctCount := correctCount s |} ∧
  (∀ h e, sessionHistory s = h ++ [e] → t_insertedAt e = None →
     studyQueue (handleUndo s') = t_card e :: shuffle (cardsToLearn deck ids)).
Proof.
  intros Hq s'.
  assert (Hs' : s' = {| studyQueue := shuffle (cardsToLearn deck ids);
                        sessionHistory := sessionHistory s;
                        correctCount := correctCount s |}).
  { unfold s', mountSession, persistSession. rewrite lookup_insert_eq. simpl.
    rewrite !(bool_decide_eq_true_2 (sd_id deck = sd_id deck)) by done. by rewrite Hq. }
  split; [done|]. intros h e Hh He. rewrite Hs'.
  unfold handleUndo. simpl. rewrite Hh, last_snoc. simpl. by rewrite He.
Qed.

(** X7.  After [handleExit] nothing of the session is left: the next mount
    builds the queue from the deck, with an empty transcript, a
    correct-count of 0 and the queue length as the total. *)
Theorem exit_forgets_session (deck : SessionDeck) (ids : option (list string))
    (s : Session) (total : nat) (storage : gmap string SavedSession) :
  mountSession shuffle deck ids (handleExit deck (persistSession deck s total storage))
  = ({| studyQueue := shuffle (cardsToLearn deck ids);
        sessionHistory := []; correctCount := 0 |},
     length (shuffle (cardsToLearn deck ids))).
Proof.
  unfold mountSession, handleExit. by rewrite lookup_delete_eq.
Qed.

(** X8.  Sessions of different decks do not touch each other: saving or
    leaving the session of one deck does not change how a deck with
    another id mounts. *)
Theorem sessions_are_per_deck (deck deck' : SessionDeck) (ids : option (list string))
    (s : Session) (total : nat) (storage : gmap string SavedSession) :
  sd_id deck' ≠ sd_id deck →
  mountSession shuffle deck' ids (persistSession deck s total storage)
  = mountSession shuffle deck' ids storage ∧
  mountSession shuffle deck' ids (handleExit deck storage)
  = mountSession shuffle deck' ids storage.
Proof.
  intros Hne.
  assert (SESSION_KEY deck ≠ SESSION_KEY deck').
  { intros Heq. apply Hne. symmetry. by apply SESSION_KEY_inj. }
  unfold mountSession, persistSession, handleExit.
  by rewrite lookup_insert_ne, lookup_delete_ne.
Qed.

(** ** Restart *)

Lemma run_on_empty_queue sw s : studyQueue s = [] → run_swipes sw s = s.
Proof.
  intros Hq. induction sw as [|e sw IH]; [done|].
  rewrite run_swipes_cons. unfold handleCardSwipe. by rewrite Hq.
Qed.

Lemma filter_nothing {A} (P : A → Prop) `{!∀ x, Decision (P x)} (l : list A) :
  (∀ x, x ∈ l → ¬ P x) → filter P l = [].
Proof.
  induction l as [|y l IH]; intros Hall; [done|].
  rewrite filter_cons_False by (apply Hall; by left).
  apply IH. intros x Hx. apply Hall. by right.
Qed.

(** X9.  A restart clears the transcript and the correct-count.  With shuffle
    off the new queue holds cards of the deck in deck order, each as the
    deck stores it, so that a retry mark on a stored card comes along: the
    whole deck when no card ids were given (or an empty list of them), and
    otherwise exactly the cards of the deck whose id is among the given
    ones. *)
Theorem restart_rebuilds_queue (isShuffle : bool) (deck : SessionDeck)
    (ids : option (list string)) (s : Session) :
  sessionHistory (handleRestart shuffle isShuffle deck ids s) = [] ∧
  correctCount (handleRestart shuffle isShuffle deck ids s) = 0 ∧
  let q := studyQueue (handleRestart shuffle false deck ids s) in
  sublist q (sd_cards deck) ∧
  (ids = None ∨ ids = Some [] → q = sd_cards deck) ∧
  (∀ l, ids = Some l → l ≠ [] →
     ∀ c, c ∈ q ↔ c ∈ sd_cards deck ∧ sc_id c ∈ l).
Proof.
  split; [done|]. split; [done|]. simpl. unfold cardsToLearn. split_and!.
  - destruct ids as [l|]; [|done]. case_bool_decide; [apply sublist_filter|done].
  - by intros [->| ->].
  - intros l -> Hl c. rewrite bool_decide_eq_true_2 by (destruct l; [done|simpl; lia]).
    rewrite list_elem_of_filter. tauto.
Qed.

(** X10.  Card ids that name no card of the deck give an empty queue, and an
    empty queue with a correct-count of 0 stays: the loading screen is
    shown, and neither swipes nor undo change anything. *)
Theorem unknown_card_ids_stall (deck : SessionDeck) (l : list string) (s : Session)
    (sw : list (SwipeDirection * Q)) :
  l ≠ [] → (∀ c, c ∈ sd_cards deck → sc_id c ∉ l) →
  let s0 := handleRestart shuffle false deck (Some l) s in
  studyQueue s0 = [] ∧ run_swipes sw s0 = s0 ∧ handleUndo s0 = s0 ∧
  render (run_swipes sw s0) = Loading.
Proof.
  intros Hl Hnone s0.
  assert (Hq : studyQueue s0 = []).
  { simpl. unfold cardsToLearn.
    rewrite bool_decide_eq_true_2 by (destruct l; [done|simpl; lia]).
    by rewrite filter_nothing. }
  assert (Hrun : run_swipes sw s0 = s0) by by apply run_on_empty_queue.
  split_and!; [done|done|done|]. rewrite Hrun. unfold render. by rewrite Hq.
Qed.

End LifeCycle.

Lemma session_resumes_witness :
  (mountSession reverse MoreSamples.study_mine None
     (persistSession MoreSamples.study_mine Samples.session_abc 3 ∅)).1
  = Samples.session_abc.
Proof.
  rewrite (session_resumes reverse MoreSamples.study_mine None Samples.session_abc 3 ∅).
  - reflexivity.
  - discriminate.
Defined.

Lemma emptied_session_remount_witness :
  studyQueue
    (handleUndo
       (mountSession reverse MoreSamples.study_one None
          (persistSession MoreSamples.study_one Samples.session_done 1 ∅)).1)
  = [Samples.card "a" "uno"; Samples.card "a" "uno"].
Proof.
  refine (proj2 (emptied_session_remount reverse _ None Samples.session_done 1 ∅ _) []
            (mkTranscript (Samples.card "a" "uno") RIGHT None) _ _); reflexivity.
Defined.

Lemma restart_rebuilds_queue_witness :
  studyQueue (handleRestart reverse false MoreSamples.study_edited None
                Samples.session_done)
  = [Samples.card "a" "uno"; markRetry (Samples.card "b" "due")].
Proof.
  destruct (restart_rebuilds_queue reverse false MoreSamples.study_edited None
              Samples.session_done) as (_ & _ & _ & Hall & _).
  apply Hall. by left.
Defined.

Lemma sessions_are_per_deck_witness :
  mountSession reverse MoreSamples.study_other None
    (persistSession MoreSamples.study_mine Samples.session_abc 3 ∅)
  = mountSession reverse MoreSamples.study_other None ∅.
Proof.
  apply (sessions_are_per_deck reverse MoreSamples.study_mine MoreSamples.study_other None
           Samples.session_abc 3 ∅).
  discriminate.
Defined.

Lemma unknown_card_ids_stall_witness :
  render (run_swipes [(RIGHT, 0%Q)]
            (handleRestart reverse false MoreSamples.study_two (Some ["zz"%string])
               Samples.session_abc)) = Loading.
Proof.
  apply (unknown_card_ids_stall reverse MoreSamples.study_two ["zz"%string]
           Samples.session_abc [(RIGHT, 0%Q)]).
  - discriminate.
  - apply Forall_forall. apply (bool_decide_unpack _). vm_compute. reflexivity.
Defined.

End StudyOpsFacts.

(** * Facts about the other store handlers *)

Module StoreOpsFacts.
Import Store StoreOps StoreFacts.

(** Closes a decidable statement about concrete data by evaluating it. *)
Ltac by_evaluation := apply (bool_decide_unpack _); vm_compute; reflexivity.

(** ** More about the two merge loops *)

Section MergeFresh.
Context {A : Type} `{HasId A}.
Implicit Types (local incoming : list A).

Lemma NoDup_ids_filter (P : A → Prop) `{!∀ x, Decision (P x)} (l : list A) :
  NoDup (idOf <$> l) → NoDup (idOf <$> filter P l).
Proof.
  intros Hnd. eapply sublist_NoDup; [exact Hnd|].
  apply fmap_sublist. apply sublist_filter.
Qed.

(** A bundle none of whose ids is known, and whose ids differ from each
    other, is appended as it is. *)
Lemma mergeAdditive_fresh incoming : ∀ local,
  NoDup (idOf <$> (local ++ incoming)) → mergeAdditive local incoming = local ++ incoming.
Proof.
  induction incoming as [|d incoming IH]; intros local Hnd.
  - by rewrite app_nil_r.
  - rewrite mergeAdditive_cons, pushIfAbsent_absent.
    + rewrite IH; rewrite <- app_assoc; done.
    + rewrite fmap_app in Hnd. apply NoDup_app in Hnd as (_ & Hdisj & _).
      intros Hin. apply (Hdisj _ Hin). simpl. by left.
Qed.

Lemma mergeAdditive_adds incoming : ∀ local d,
  d ∈ incoming → idOf d ∉ idOf <$> local → NoDup (idOf <$> incoming) →
  d ∈ mergeAdditive local incoming.
Proof.
  induction incoming as [|x incoming IH]; intros local d Hd Hout Hnd.
  - by apply elem_of_nil in Hd.
  - rewrite mergeAdditive_cons. simpl in Hnd. apply NoDup_cons in Hnd as [Hx Hnd].
    apply elem_of_cons in Hd as [->|Hd].
    + rewrite pushIfAbsent_absent by done.
      destruct (mergeAdditive_extends incoming (local ++ [x])) as (extra & -> & _).
      rewrite !elem_of_app. left. right. by left.
    + apply IH; [done| |done].
      destruct (decide (idOf x ∈ idOf <$> local)) as [Hin|Hno].
      * by rewrite pushIfAbsent_present.
      * rewrite pushIfAbsent_absent, fmap_app, elem_of_app by done.
        intros [?|Heq%list_elem_of_singleton]; [done|].
        apply Hx. rewrite <- Heq. by apply list_elem_of_fmap_2.
Qed.

End MergeFresh.

Lemma pushOrReplace_same (M : list Course) (c : Course) :
  NoDup (idOf <$> M) → c ∈ M → pushOrReplace M c = M.
Proof.
  intros Hnd Hc.
  assert (Hin : idOf c ∈ idOf <$> M) by by apply list_elem_of_fmap_2.
  destruct (pushOrReplace_present M c Hin) as (i & x & Hi & Hx & _ & ->).
  apply list_insert_id. rewrite Hi. f_equal.
  apply list_elem_of_lookup in Hc as [j Hj].
  assert (i = j) as ->; [|congruence].
  apply (NoDup_lookup (idOf <$> M) i j (idOf c)); [done| |].
  - by rewrite list_lookup_fmap, Hi, <- Hx.
  - by rewrite list_lookup_fmap, Hj.
Qed.

Lemma mergeCourses_same (cs : list Course) : ∀ M,
  NoDup (idOf <$> M) → (∀ c, c ∈ cs → c ∈ M) → mergeCourses M cs = M.
Proof.
  induction cs as [|c cs IH]; intros M Hnd Hall; [done|].
  rewrite mergeCourses_cons, pushOrReplace_same; [|done|apply Hall; by left].
  apply IH; [done|]. intros c' Hc'. apply Hall. by right.
Qed.

Lemma mergeCourses_fresh (cs : list Course) : ∀ M,
  NoDup (idOf <$> (M ++ cs)) → mergeCourses M cs = M ++ cs.
Proof.
  induction cs as [|c cs IH]; intros M Hnd.
  - by rewrite app_nil_r.
  - rewrite mergeCourses_cons, pushOrReplace_absent.
    + rewrite IH; rewrite <- app_assoc; done.
    + rewrite fmap_app in Hnd. apply NoDup_app in Hnd as (_ & Hdisj & _).
      intros Hin. apply (Hdisj _ Hin). simpl. by left.
Qed.

Lemma pushOrReplace_holds (M : list Course) (c : Course) : c ∈ pushOrReplace M c.
Proof.
  destruct (decide (idOf c ∈ idOf <$> M)) as [Hin|Hout].
  - destruct (pushOrReplace_present M c Hin) as (i & x & Hi & _ & _ & ->).
    apply list_elem_of_insert. by eapply lookup_lt_Some.
  - rewrite pushOrReplace_absent by done. apply elem_of_app. right. by left.
Qed.

Lemma filter_filter_same {A} (P : A → Prop) `{!∀ x, Decision (P x)} (l : list A) :
  filter P (filter P l) = filter P l.
Proof.
  induction l as [|x l IH]; [done|].
  destruct (decide (P x)) as [Hx|Hx].
  - rewrite (filter_cons_True P x l) by done.
    rewrite (filter_cons_True P x (filter P l)) by done. by f_equal.
  - by rewrite (filter_cons_False P x l) by done.
Qed.

Lemma filter_subset {A} (P : A → Prop) `{!∀ x, Decision (P x)} (l : list A) x :
  x ∈ filter P l → x ∈ l.
Proof. rewrite list_elem_of_filter. tauto. Qed.

(** ** Export and import *)

(** X11.  Importing one's own full export into the store it was taken from
    changes nothing, provided the course ids of the store are pairwise
    distinct. *)
Theorem reimport_own_export (st : AppState) (data : FileData) :
  exportFullProfile st = Some data →
  NoDup (c_id <$> courses st) →
  processProfileFile data true st = (st, ProfileSynced).
Proof.
  unfold exportFullProfile. destruct (currentUser st) as [u|] eqn:Hu; [|done].
  intros [= <-] Hnd. unfold processProfileFile. simpl. rewrite Hu. simpl.
  f_equal. unfold mergeData, userDecks, userCourses, userFolders, userHistory.
  rewrite Hu. destruct st as [cu ds cs fs hs v a]. simpl in *. subst cu. f_equal.
  - apply mergeAdditive_known. intros d Hd. apply list_elem_of_fmap_2.
    by eapply filter_subset.
  - apply mergeCourses_same; [done|]. intros c Hc. by eapply filter_subset.
  - apply mergeAdditive_known. intros d Hd. apply list_elem_of_fmap_2.
    by eapply filter_subset.
  - apply mergeAdditive_known. intros d Hd. apply list_elem_of_fmap_2.
    by eapply filter_subset.
Qed.

(** X12.  Restoring a full export into an empty store without a user gives
    back the exporting user and exactly the decks, courses, folders and
    history that this user could see, provided the ids in each collection
    of the exporting store are pairwise distinct; the restored user sees
    all of them again. *)
Theorem restore_round_trip (st : AppState) (data : FileData) :
  exportFullProfile st = Some data →
  NoDup (d_id <$> decks st) → NoDup (c_id <$> courses st) →
  NoDup (f_id <$> folders st) → NoDup (h_id <$> history st) →
  let r := processProfileFile data true emptyStore in
  r.2 = Silent ∧
  currentUser r.1 = currentUser st ∧ view r.1 = "dashboard"%string ∧
  decks r.1 = userDecks st ∧ courses r.1 = userCourses st ∧
  folders r.1 = userFolders st ∧ history r.1 = userHistory st ∧
  userDecks r.1 = userDecks st ∧ userCourses r.1 = userCourses st ∧
  userFolders r.1 = userFolders st ∧ userHistory r.1 = userHistory st.
Proof.
  unfold exportFullProfile. destruct (currentUser st) as [u|] eqn:Hu; [|done].
  intros [= <-] Hd Hc Hf Hh. unfold processProfileFile. simpl.
  unfold userDecks, userCourses, userFolders, userHistory. rewrite Hu. simpl.
  assert (Ed : mergeAdditive [] (filter (λ d, d_authorId d = u_id u) (decks st))
               = filter (λ d, d_authorId d = u_id u) (decks st)).
  { rewrite mergeAdditive_fresh; [done|]. simpl. by apply (NoDup_ids_filter (A:=Deck)). }
  assert (Ec : mergeCourses []
                 (filter (λ c, c_authorId c = u_id u ∨ u_id u ∈ c_memberIds c) (courses st))
               = filter (λ c, c_authorId c = u_id u ∨ u_id u ∈ c_memberIds c) (courses st)).
  { rewrite mergeCourses_fresh; [done|]. simpl. by apply (NoDup_ids_filter (A:=Course)). }
  assert (Ef : mergeAdditive [] (filter (λ f, f_authorId f = u_id u) (folders st))
               = filter (λ f, f_authorId f = u_id u) (folders st)).
  { rewrite mergeAdditive_fresh; [done|]. simpl. by apply (NoDup_ids_filter (A:=Folder)). }
  assert (Eh : mergeAdditive [] (filter (λ h, h_userId h = u_id u) (history st))
               = filter (λ h, h_userId h = u_id u) (history st)).
  { rewrite mergeAdditive_fresh; [done|]. simpl.
    by apply (NoDup_ids_filter (A:=HistoryEntry)). }
  rewrite Ed, Ec, Ef, Eh. split_and!; try done; apply filter_filter_same.
Qed.

(** X13.  A shared-course file exported from one store and imported by the user
    of another store: the import is accepted, the importer finds the course
    among their courses, and every deck of the exporting store that the
    course lists is then stored under its id.  Provided the deck ids of
    the exporting store are pairwise distinct, such a deck, when it is new
    to the importing store and written by somebody else, is stored but is
    not among the decks the importer is shown. *)
Theorem shared_course_reaches_importer (st1 st2 : AppState) (course : Course) (u : User) :
  currentUser st2 = Some u →
  let r := processProfileFile (handleExportCourse course st1) true st2 in
  r.2 = CourseImported ∧
  (∃ c', c' ∈ userCourses r.1 ∧ c_id c' = c_id course ∧ c_name c' = c_name course ∧
         c_authorId c' = c_authorId course ∧ c_deckIds c' = c_deckIds course) ∧
  (∀ d, d ∈ decks st1 → d_id d ∈ c_deckIds course → d_id d ∈ d_id <$> decks r.1) ∧
  (NoDup (d_id <$> decks st1) →
   ∀ d, d ∈ decks st1 → d_id d ∈ c_deckIds course →
        d_id d ∉ d_id <$> decks st2 → d_authorId d ≠ u_id u →
        d ∈ decks r.1 ∧ d ∉ userDecks r.1).
Proof.
  intros Hu r. unfold r, processProfileFile, handleExportCourse. simpl. rewrite Hu.
  set (c' := if mustJoin u course then pushMember course (u_id u) else course).
  simpl. split_and!.
  - done.
  - exists c'. split_and!.
    + unfold userCourses. simpl. rewrite Hu. apply list_elem_of_filter. split.
      * unfold c', mustJoin.
        case_bool_decide as Hmem; case_bool_decide as Hauth; simpl.
        -- by right.
        -- by right.
        -- by left.
        -- right. apply elem_of_app. right. by left.
      * apply pushOrReplace_holds.
    + unfold c'. by destruct (mustJoin u course).
    + unfold c'. by destruct (mustJoin u course).
    + unfold c'. by destruct (mustJoin u course).
    + unfold c'. by destruct (mustJoin u course).
  - intros d Hd Hin. apply (mergeAdditive_takes_ids (A:=Deck)).
    apply list_elem_of_filter. done.
  - intros Hnd d Hd Hin Hnew Hauthor. split.
    + apply mergeAdditive_adds; [by apply list_elem_of_filter|done|].
      by apply (NoDup_ids_filter (A:=Deck)).
    + unfold userDecks. simpl. rewrite Hu. rewrite list_elem_of_filter. tauto.
Qed.






(** ** Decks entering the store *)

(** X15.  With a user logged in, a deck handed over by the deck creator is
    stored last under its own id with the user as author, is among the
    decks shown to the user, and is recorded by a new first history entry
    of the user that names it; the view goes back to the dashboard. *)
Theorem created_deck_is_visible (newDeck : Deck) (uuid : string) (now : Z)
    (st : AppState) (u : User) :
  currentUser st = Some u →
  let st' := handleCreateDeck newDeck uuid now st in
  ∃ d e,
    decks st' = decks st ++ [d] ∧ d ∈ userDecks st' ∧
    d_id d = d_id newDeck ∧ d_name d = d_name newDeck ∧
    d_cards d = d_cards newDeck ∧ d_authorId d = u_id u ∧
    history st' = e :: history st ∧ e ∈ userHistory st' ∧
    h_deckId e = d_id d ∧ h_deckName e = d_name d ∧ h_action e = Created ∧
    h_id e = uuid ∧ h_timestamp e = now ∧
    view st' = "dashboard"%string.
Proof.
  intros Hu st'.
  assert (Hst : st' =
    {| currentUser := Some u; decks := decks st ++ [withAuthor newDeck (u_id u)];
       courses := courses st; folders := folders st;
       history := {| h_id := uuid; h_userId := u_id u; h_deckId := d_id newDeck;
                     h_deckName := d_name newDeck; h_action := Created;
                     h_timestamp := now |} :: history st;
       view := "dashboard"; activeDeckId := activeDeckId st |}).
  { unfold st', handleCreateDeck, addToHistory. rewrite Hu. simpl. by rewrite Hu. }
  rewrite Hst. simpl. eexists _, _. split_and!; try done.
  - unfold userDecks. simpl. apply list_elem_of_filter. split; [done|].
    apply elem_of_app. right. by left.
  - unfold userHistory. simpl. apply list_elem_of_filter. split; [done|].
    by left.
Qed.

(** X16.  With a user logged in, an imported deck file that is accepted is
    stored last with the user as author, is among the decks shown to the
    user, and is recorded by a new first history entry that carries the id
    under which the deck was stored, also when that id was drawn afresh. *)
Theorem imported_deck_is_visible (d : Deck) (ftype : option string)
    (deckUuid entryUuid : string) (now : Z) (st : AppState) (u : User) :
  currentUser st = Some u →
  d_id d ≠ ""%string → d_name d ≠ ""%string → ftype ≠ Some "course_share"%string →
  let r := handleImportDeck d ftype deckUuid entryUuid now st in
  r.2 = DeckImported ∧
  ∃ d' e,
    decks r.1 = decks st ++ [d'] ∧ d' ∈ userDecks r.1 ∧
    d_authorId d' = u_id u ∧ d_cards d' = d_cards d ∧
    history r.1 = e :: history st ∧ e ∈ userHistory r.1 ∧
    h_deckId e = d_id d' ∧ h_deckName e = d_name d ∧ h_action e = Imported.
Proof.
  intros Hu Hid Hname Htype r.
  set (d1 := if bool_decide (Exists (λ x, d_id x = d_id d) (decks st))
             then withId d deckUuid else d).
  assert (Hr : r =
    ({| currentUser := Some u; decks := decks st ++ [withAuthor d1 (u_id u)];
        courses := courses st; folders := folders st;
        history := {| h_id := entryUuid; h_userId := u_id u; h_deckId := d_id d1;
                      h_deckName := d_name d1; h_action := Imported;
                      h_timestamp := now |} :: history st;
        view := view st; activeDeckId := activeDeckId st |}, DeckImported)).
  { unfold r, handleImportDeck.
    apply truthy_Some in Hid as ->. apply truthy_Some in Hname as ->. simpl.
    rewrite (bool_decide_eq_false_2 (ftype = _)) by done.
    unfold addToHistory. rewrite Hu. simpl. by rewrite Hu. }
  rewrite Hr. simpl. split; [done|].
  assert (d_cards d1 = d_cards d ∧ d_name d1 = d_name d) as [Hc Hn].
  { unfold d1. by case_bool_decide. }
  eexists _, _. split_and!; try done.
  - unfold userDecks. simpl. apply list_elem_of_filter. split; [done|].
    apply elem_of_app. right. by left.
  - unfold userHistory. simpl. apply list_elem_of_filter. split; [done|].
    by left.
Qed.


(** ** Editing cards *)

Lemma fmap_fixed {A} (f : A → A) (l : list A) :
  (∀ x, x ∈ l → f x = x) → f <$> l = l.
Proof.
  induction l as [|x l IH]; intros Hf; [done|]. simpl. f_equal.
  - apply Hf. by left.
  - apply IH. intros y Hy. apply Hf. by right.
Qed.

Lemma fmap_twice {A} (f : A → A) (l : list A) :
  (∀ x, f (f x) = f x) → f <$> (f <$> l) = f <$> l.
Proof.
  intros Hf. induction l as [|x l IH]; [done|]. simpl. f_equal; [apply Hf|apply IH].
Qed.

(** A guarded update whose result never passes the guard again. *)
Lemma cond_update_twice {A} (p : A → bool) (g : A → A) (l : list A) :
  (∀ x, p x = true → p (g x) = false) →
  (λ x, if p x then g x else x) <$> ((λ x, if p x then g x else x) <$> l)
  = (λ x, if p x then g x else x) <$> l.
Proof.
  intros Hp. apply fmap_twice. intros x. destruct (p x) eqn:E.
  - by rewrite Hp.
  - by rewrite E.
Qed.

Lemma filter_all {A} (P : A → Prop) `{!∀ x, Decision (P x)} (l : list A) :
  (∀ x, x ∈ l → P x) → filter P l = l.
Proof.
  induction l as [|x l IH]; intros Hall; [done|].
  rewrite filter_cons_True by (apply Hall; by left). f_equal.
  apply IH. intros y Hy. apply Hall. by right.
Qed.

Lemma setDecks_same st : setDecks (decks st) st = st.
Proof. by destruct st. Qed.

Lemma setCourses_same st : setCourses (courses st) st = st.
Proof. by destruct st. Qed.

Lemma setFolders_same st : setFolders (folders st) st = st.
Proof. by destruct st. Qed.

Lemma no_card_with_id (cs : list Flashcard) (k : string) :
  ¬ Exists (λ c, fc_id c = k) cs ↔ k ∉ fc_id <$> cs.
Proof.
  rewrite Exists_exists, list_elem_of_fmap. split.
  - intros Hno (c & -> & Hc). apply Hno. by exists c.
  - intros Hno (c & Hc & <-). apply Hno. by exists c.
Qed.

Lemma delete_card_effect_aux (cardId : string) (st : AppState) i d :
  decks st !! i = Some d →
  ∃ d', decks (handleDeleteCard cardId st) !! i = Some d' ∧
        d_id d' = d_id d ∧
        d_cards d' = filter (λ c, fc_id c ≠ cardId) (d_cards d).
Proof.
  intros Hi. simpl. rewrite list_lookup_fmap, Hi. simpl. eexists. split; [done|].
  case_bool_decide as Hex; [done|]. split; [done|]. symmetry. apply filter_all.
  intros c Hc Hid. apply Hex. apply Exists_exists. by exists c.
Qed.

(** X18.  An edited card replaces every card with its id, in every deck that
    holds one, at the position of the old card; all other cards, the card
    ids of every deck and the decks' own fields stay as they are, and when
    no deck holds a card with that id nothing changes at all. *)
Theorem update_card_effect (u : Flashcard) (st : AppState) :
  let st' := handleUpdateCard u st in
  length (decks st') = length (decks st) ∧
  (∀ i d, decks st !! i = Some d →
     ∃ d', decks st' !! i = Some d' ∧
       d_id d' = d_id d ∧ d_name d' = d_name d ∧ d_authorId d' = d_authorId d ∧
       d_createdAt d' = d_createdAt d ∧
       fc_id <$> d_cards d' = fc_id <$> d_cards d ∧
       (∀ j c, d_cards d !! j = Some c →
          d_cards d' !! j = Some (if decide (fc_id c = fc_id u) then u else c))) ∧
  ((∀ d, d ∈ decks st → fc_id u ∉ fc_id <$> d_cards d) → st' = st) ∧
  courses st' = courses st ∧ folders st' = folders st ∧ history st' = history st.
Proof.
  simpl. split_and!; try done.
  - by rewrite length_fmap.
  - intros i d Hi. rewrite list_lookup_fmap, Hi. simpl. eexists. split; [done|].
    case_bool_decide as Hex; simpl; split_and!; try done.
    + rewrite <- list_fmap_compose. apply list_fmap_ext. intros j c _. simpl.
      by case_decide.
    + intros j c Hj. by rewrite list_lookup_fmap, Hj.
    + intros j c Hj. rewrite Hj. f_equal. case_decide as Hc; [|done].
      exfalso. apply Hex. apply Exists_exists. exists c. split; [|done].
      by eapply list_elem_of_lookup_2.
  - intros Hnone. unfold handleUpdateCard. rewrite fmap_fixed; [apply setDecks_same|].
    intros d Hd. rewrite bool_decide_eq_false_2; [done|].
    apply no_card_with_id. by apply Hnone.
Qed.

(** X19.  Deleting a card by id removes every card with that id from every
    deck and nothing else: each deck keeps its place and its fields and
    its other cards in order, afterwards no deck holds a card with that id,
    and when none did before nothing changes at all. *)
Theorem delete_card_effect (cardId : string) (st : AppState) :
  let st' := handleDeleteCard cardId st in
  length (decks st') = length (decks st) ∧
  (∀ i d, decks st !! i = Some d →
     ∃ d', decks st' !! i = Some d' ∧
       d_id d' = d_id d ∧ d_name d' = d_name d ∧ d_authorId d' = d_authorId d ∧
       d_createdAt d' = d_createdAt d ∧
       d_cards d' = filter (λ c, fc_id c ≠ cardId) (d_cards d)) ∧
  (∀ d', d' ∈ decks st' → cardId ∉ fc_id <$> d_cards d') ∧
  ((∀ d, d ∈ decks st → cardId ∉ fc_id <$> d_cards d) → st' = st) ∧
  courses st' = courses st ∧ folders st' = folders st ∧ history st' = history st.
Proof.
  assert (Hstep : ∀ d,
    d_cards (if bool_decide (Exists (λ c, fc_id c = cardId) (d_cards d))
             then withCards d (filter (λ c, fc_id c ≠ cardId) (d_cards d)) else d)
    = filter (λ c, fc_id c ≠ cardId) (d_cards d)).
  { intros d. case_bool_decide as Hex; [done|]. symmetry. apply filter_all.
    intros c Hc Hid. apply Hex. apply Exists_exists. by exists c. }
  simpl. split_and!; try done.
  - by rewrite length_fmap.
  - intros i d Hi. rewrite list_lookup_fmap, Hi. simpl. eexists. split; [done|].
    split_and!; try (by case_bool_decide). apply Hstep.
  - intros d' (d & -> & Hd)%list_elem_of_fmap. rewrite Hstep.
    intros (c & Hc & [Hne _]%list_elem_of_filter)%list_elem_of_fmap. done.
  - intros Hnone. unfold handleDeleteCard. rewrite fmap_fixed; [apply setDecks_same|].
    intros d Hd. rewrite bool_decide_eq_false_2; [done|].
    apply no_card_with_id. by apply Hnone.
Qed.

(** X20.  A deck imported while a deck with its id is in the store becomes a
    copy under the drawn id with the very same cards; as cards are found by
    their id alone, deleting a card then takes it out of the copy as well as
    out of every other deck. *)
Theorem imported_copy_shares_cards (d : Deck) (ftype : option string)
    (deckUuid entryUuid : string) (now : Z) (st : AppState) :
  d_id d ∈ d_id <$> decks st →
  d_id d ≠ ""%string → d_name d ≠ ""%string → ftype ≠ Some "course_share"%string →
  let st1 := (handleImportDeck d ftype deckUuid entryUuid now st).1 in
  ∃ d', decks st1 = decks st ++ [d'] ∧ d_id d' = deckUuid ∧ d_cards d' = d_cards d ∧
    ∀ cardId,
      ∃ d'', last (decks (handleDeleteCard cardId st1)) = Some d'' ∧
             d_id d'' = deckUuid ∧
             d_cards d'' = filter (λ c, fc_id c ≠ cardId) (d_cards d).
Proof.
  intros Hd Hid Hname Htype st1.
  destruct (handleImportDeck_decks st d ftype deckUuid entryUuid now Hid Hname Htype)
    as (d' & Hdecks & _ & Hcards & _ & Hnew).
  fold st1 in Hdecks. exists d'.
  assert (Hid' : d_id d' = deckUuid).
  { rewrite Hnew. by rewrite decide_True. }
  split_and!; [done..|]. intros cardId.
  destruct (delete_card_effect_aux cardId st1 (length (decks st)) d')
    as (d'' & Hl & Hi & Hc).
  { rewrite Hdecks. by apply list_lookup_middle. }
  exists d''. split_and!; [|congruence|congruence].
  rewrite last_lookup. simpl. rewrite length_fmap, Hdecks, length_app. simpl.
  replace (Init.Nat.pred (length (decks st) + 1)) with (length (decks st)) by lia.
  simpl in Hl. by rewrite <- Hdecks.
Qed.

(** ** Decks of a course and of a folder *)

Lemma withCourseDecks_same c : withCourseDecks c (c_deckIds c) = c.
Proof. by destruct c. Qed.

Lemma filter_snoc_out (l : list string) (k : string) :
  k ∉ l → filter (λ x, x ≠ k) (l ++ [k]) = l.
Proof.
  intros Hout. rewrite filter_app, filter_all.
  - rewrite filter_cons_False by (by intros ?). by rewrite app_nil_r.
  - intros x Hx ->. done.
Qed.

(** X21.  Adding a deck to a course is a set insertion: doing it twice is the
    same as doing it once; courses with another id are untouched; a course
    with the id lists the deck afterwards, lists nothing else that is new,
    is unchanged when it listed the deck before, and lists no deck twice
    when it did not before. *)
Theorem add_deck_to_course_effect (courseId deckId : string) (st : AppState) :
  let st' := handleAddDeckToCourse courseId deckId st in
  handleAddDeckToCourse courseId deckId st' = st' ∧
  (∀ i c, courses st !! i = Some c →
     ∃ c', courses st' !! i = Some c' ∧ c_id c' = c_id c ∧
       c_memberIds c' = c_memberIds c ∧
       (c_id c ≠ courseId → c' = c) ∧
       (c_id c = courseId →
          deckId ∈ c_deckIds c' ∧
          (∀ x, x ∈ c_deckIds c' ↔ x ∈ c_deckIds c ∨ x = deckId) ∧
          (deckId ∈ c_deckIds c → c' = c)) ∧
       (NoDup (c_deckIds c) → NoDup (c_deckIds c'))) ∧
  decks st' = decks st ∧ folders st' = folders st.
Proof.
  simpl. split_and!; try done.
  - unfold handleAddDeckToCourse, setCourses. simpl. f_equal.
    apply (cond_update_twice
             (λ c, bool_decide (c_id c = courseId)
                   && negb (bool_decide (deckId ∈ c_deckIds c)))
             (λ c, withCourseDecks c (c_deckIds c ++ [deckId]))).
    intros c _. simpl.
    rewrite (bool_decide_eq_true_2 (deckId ∈ _)) by (apply elem_of_app; right; by left).
    apply andb_false_r.
  - intros i c Hi. rewrite list_lookup_fmap, Hi. simpl. eexists. split; [done|].
    case_bool_decide as Hid; simpl; [|by split_and!].
    case_bool_decide as Hin; simpl.
    + split_and!; try done. intros _. split_and!; [done| |done].
      intros x. split; [by left|]. by intros [?| ->].
    + split_and!; try done.
      * intros _. split_and!.
        -- apply elem_of_app. right. by left.
        -- intros x. rewrite elem_of_app, list_elem_of_singleton. tauto.
        -- done.
      * intros Hnd. apply NoDup_app. split_and!; [done| |apply NoDup_singleton].
        intros x Hx ->%list_elem_of_singleton. done.
Qed.

(** X22.  Removing a deck from a course takes its id out of every course with
    that course id and changes no other course; removing it right after it
    was added to courses that did not list it gives the store back. *)
Theorem remove_deck_from_course_effect (courseId deckId : string) (st : AppState) :
  let st' := handleRemoveDeckFromCourse courseId deckId st in
  (∀ i c, courses st !! i = Some c →
     ∃ c', courses st' !! i = Some c' ∧ c_id c' = c_id c ∧
       (c_id c ≠ courseId → c' = c) ∧
       (c_id c = courseId →
          (deckId ∉ c_deckIds c') ∧
          c_deckIds c' = filter (λ x, x ≠ deckId) (c_deckIds c))) ∧
  decks st' = decks st ∧
  ((∀ c, c ∈ courses st → c_id c = courseId → deckId ∉ c_deckIds c) →
     handleRemoveDeckFromCourse courseId deckId
       (handleAddDeckToCourse courseId deckId st) = st).
Proof.
  simpl. split_and!; try done.
  - intros i c Hi. rewrite list_lookup_fmap, Hi. simpl. eexists. split; [done|].
    case_bool_decide as Hid; simpl; split_and!; try done.
    intros _. split; [|done]. rewrite list_elem_of_filter. by intros [? _].
  - intros Hout. unfold handleRemoveDeckFromCourse, handleAddDeckToCourse, setCourses.
    simpl. rewrite <- list_fmap_compose. rewrite fmap_fixed; [by destruct st|].
    intros c Hc. simpl. destruct (decide (c_id c = courseId)) as [Hid|Hid].
    + rewrite (bool_decide_eq_true_2 (c_id c = courseId)) by done.
      rewrite (bool_decide_eq_false_2 (deckId ∈ c_deckIds c)) by by apply Hout.
      simpl. rewrite (bool_decide_eq_true_2 (c_id c = courseId)) by done.
      rewrite filter_snoc_out by by apply Hout. by destruct c.
    + rewrite (bool_decide_eq_false_2 (c_id c = courseId)) by done. simpl.
      by rewrite (bool_decide_eq_false_2 (c_id c = courseId)) by done.
Qed.

(** X23.  The active deck is added to a course or a folder only when there is
    one: without an active deck both handlers leave the store alone; with
    one, adding to a course is [handleAddDeckToCourse] for that deck, and
    adding to a folder twice is the same as adding once and changes no
    folder with another id. *)
Theorem add_active_deck_effect (targetId : string) (st : AppState) :
  (activeDeckId st = None ∨ activeDeckId st = Some ""%string →
     handleAddToCourse targetId st = st ∧ handleAddToFolder targetId st = st) ∧
  (∀ deckId, activeDeckId st = Some deckId → deckId ≠ ""%string →
     handleAddToCourse targetId st = handleAddDeckToCourse targetId deckId st ∧
     handleAddToFolder targetId (handleAddToFolder targetId st)
       = handleAddToFolder targetId st ∧
     ∀ i f, folders st !! i = Some f →
       ∃ f', folders (handleAddToFolder targetId st) !! i = Some f' ∧
             f_id f' = f_id f ∧
             (f_id f ≠ targetId → f' = f) ∧
             (f_id f = targetId →
                ∀ x, x ∈ f_deckIds f' ↔ x ∈ f_deckIds f ∨ x = deckId)).
Proof.
  split.
  - unfold handleAddToCourse, handleAddToFolder. by intros [-> | ->].
  - intros deckId Ha Hne. apply truthy_Some in Hne as Ht.
    assert (Hact : ∀ s, activeDeckId s = Some deckId →
      handleAddToFolder targetId s
      = setFolders
          ((λ f, if bool_decide (f_id f = targetId)
                    && negb (bool_decide (deckId ∈ f_deckIds f))
                 then withFolderDecks f (f_deckIds f ++ [deckId]) else f)
             <$> folders s) s).
    { intros s Hs. unfold handleAddToFolder. rewrite Hs. cbv beta iota. by rewrite Ht. }
    split_and!.
    + unfold handleAddToCourse. rewrite Ha. cbv beta iota. by rewrite Ht.
    + rewrite (Hact st Ha). rewrite Hact by exact Ha. unfold setFolders. simpl. f_equal.
      apply (cond_update_twice
               (λ f, bool_decide (f_id f = targetId)
                     && negb (bool_decide (deckId ∈ f_deckIds f)))
               (λ f, withFolderDecks f (f_deckIds f ++ [deckId]))).
      intros f _. simpl.
      rewrite (bool_decide_eq_true_2 (deckId ∈ _)) by (apply elem_of_app; right; by left).
      apply andb_false_r.
    + intros i f Hi. rewrite (Hact st Ha). simpl. rewrite list_lookup_fmap, Hi. simpl.
      eexists. split; [done|].
      case_bool_decide as Hid; simpl; [|by split_and!].
      case_bool_decide as Hin; simpl; split_and!; try done; intros _ x.
      * split; [by left|]. by intros [?| ->].
      * rewrite elem_of_app, list_elem_of_singleton. tauto.
Qed.

(** ** Deleting courses and folders *)

(** X24.  Deleting a course or a folder needs the confirmation: declined, the
    handler changes nothing; confirmed, it removes every course (folder)
    with that id and no other, leaves all decks in the store, and a deleted
    course that was open sends the view back to the dashboard. *)
Theorem delete_course_or_folder_effect (targetId : string) (confirm : bool)
    (nav : CourseNav) :
  let nav' := handleDeleteCourse targetId confirm nav in
  let st' := handleDeleteFolder targetId confirm (nav_app nav) in
  (confirm = false → nav' = nav ∧ st' = nav_app nav) ∧
  (confirm = true →
     (∀ c, c ∈ courses (nav_app nav') ↔ c ∈ courses (nav_app nav) ∧ c_id c ≠ targetId) ∧
     (∀ f, f ∈ folders st' ↔ f ∈ folders (nav_app nav) ∧ f_id f ≠ targetId) ∧
     activeCourseId nav' ≠ Some targetId ∧
     (activeCourseId nav = Some targetId → view (nav_app nav') = "dashboard"%string) ∧
     (activeCourseId nav ≠ Some targetId →
        activeCourseId nav' = activeCourseId nav ∧
        view (nav_app nav') = view (nav_app nav))) ∧
  decks (nav_app nav') = decks (nav_app nav) ∧
  folders (nav_app nav') = folders (nav_app nav) ∧
  decks st' = decks (nav_app nav) ∧ courses st' = courses (nav_app nav).
Proof.
  unfold handleDeleteCourse, handleDeleteFolder. destruct confirm; simpl.
  - split; [done|]. case_bool_decide as Ha; simpl; split_and!; try done; intros _.
    + split_and!; try done.
      * intros c. rewrite list_elem_of_filter. tauto.
      * intros f. rewrite list_elem_of_filter. tauto.
    + split_and!; try done.
      * intros c. rewrite list_elem_of_filter. tauto.
      * intros f. rewrite list_elem_of_filter. tauto.
  - split_and!; done.
Qed.

(** ** References to decks *)

(** X25.  If every deck id listed by a course or a folder names a deck of the
    store, this is still so after a deck is deleted, renamed, or has a card
    edited or deleted. *)
Theorem deck_edits_keep_references (st : AppState) :
  references_resolve st →
  (∀ deckId, references_resolve (handleDeleteDeck deckId st)) ∧
  (∀ deckId newName, references_resolve (handleRenameDeck deckId newName st)) ∧
  (∀ u, references_resolve (handleUpdateCard u st)) ∧
  (∀ cardId, references_resolve (handleDeleteCard cardId st)).
Proof.
  intros [Hc Hf].
  assert (Hids : ∀ (g : Deck → Deck), (∀ d, d_id (g d) = d_id d) →
            d_id <$> (g <$> decks st) = d_id <$> decks st).
  { intros g Hg. rewrite <- list_fmap_compose. apply list_fmap_ext.
    intros i d _. apply Hg. }
  split_and!.
  - intros deckId. split; simpl.
    + intros c' (c & -> & Hin)%list_elem_of_fmap i. simpl.
      intros [Hne Hi]%list_elem_of_filter.
      apply (Hc c Hin) in Hi. apply list_elem_of_fmap in Hi as (d & -> & Hd).
      apply list_elem_of_fmap_2. by apply list_elem_of_filter.
    + intros f' (f & -> & Hin)%list_elem_of_fmap i. simpl.
      intros [Hne Hi]%list_elem_of_filter.
      apply (Hf f Hin) in Hi. apply list_elem_of_fmap in Hi as (d & -> & Hd).
      apply list_elem_of_fmap_2. by apply list_elem_of_filter.
  - intros deckId newName. split; simpl; intros x Hx i Hi; rewrite Hids;
      try (intros d; by case_decide); eauto.
  - intros u. split; simpl; intros x Hx i Hi; rewrite Hids;
      try (intros d; by case_bool_decide); eauto.
  - intros cardId. split; simpl; intros x Hx i Hi; rewrite Hids;
      try (intros d; by case_bool_decide); eauto.
Qed.

(** ** Renaming a deck *)

(** X26.  A rename changes the name of every deck with the id and nothing
    else; a second rename of the same id overrides the first; an id that no
    deck has leaves the store as it is. *)
Theorem rename_deck_effect (deckId newName : string) (st : AppState) :
  let st' := handleRenameDeck deckId newName st in
  (∀ i d, decks st !! i = Some d →
     ∃ d', decks st' !! i = Some d' ∧ d_id d' = d_id d ∧ d_cards d' = d_cards d ∧
           d_authorId d' = d_authorId d ∧ d_createdAt d' = d_createdAt d ∧
           d_name d' = if decide (d_id d = deckId) then newName else d_name d) ∧
  (∀ other, handleRenameDeck deckId other st' = handleRenameDeck deckId other st) ∧
  (deckId ∉ d_id <$> decks st → st' = st) ∧
  courses st' = courses st ∧ folders st' = folders st ∧ history st' = history st.
Proof.
  simpl. split_and!; try done.
  - intros i d Hi. rewrite list_lookup_fmap, Hi. simpl. eexists. split; [done|].
    by case_decide.
  - intros other. unfold handleRenameDeck, setDecks. simpl. f_equal.
    rewrite <- list_fmap_compose. apply list_fmap_ext. intros i d _. simpl.
    destruct (decide (d_id d = deckId)) as [Hid|Hid]; simpl.
    + by rewrite decide_True.
    + by rewrite decide_False.
  - intros Hout. unfold handleRenameDeck. rewrite fmap_fixed; [apply setDecks_same|].
    intros d Hd. rewrite decide_False; [done|]. intros <-. apply Hout.
    by apply list_elem_of_fmap_2.
Qed.

(** ** Members of a course *)

(** X27.  For a name of ASCII characters, adding a member to a course is a set
    insertion of the id derived from the name: doing it twice is the same
    as doing it once; courses with another id are untouched; a course with
    the id has the member afterwards, gains no other member, keeps its
    decks, and lists no member twice when it did not before. *)
Theorem add_member_effect (courseId name : string) (st : AppState) :
  ascii_only name →
  let st' := handleAddMemberToCourse courseId name st in
  handleAddMemberToCourse courseId name st' = st' ∧
  (∀ i c, courses st !! i = Some c →
     ∃ c', courses st' !! i = Some c' ∧ c_id c' = c_id c ∧
       c_deckIds c' = c_deckIds c ∧ c_authorId c' = c_authorId c ∧
       (c_id c ≠ courseId → c' = c) ∧
       (c_id c = courseId →
          ∀ x, x ∈ c_memberIds c' ↔ x ∈ c_memberIds c ∨ x = memberIdOf name) ∧
       (NoDup (c_memberIds c) → NoDup (c_memberIds c'))) ∧
  decks st' = decks st.
Proof.
  intros _. simpl. split_and!; try done.
  - unfold handleAddMemberToCourse, setCourses. simpl. f_equal.
    apply (cond_update_twice
             (λ c, bool_decide (c_id c = courseId)
                   && negb (bool_decide (memberIdOf name ∈ c_memberIds c)))
             (λ c, pushMember c (memberIdOf name))).
    intros c _. simpl.
    rewrite (bool_decide_eq_true_2 (memberIdOf name ∈ _))
      by (apply elem_of_app; right; by left).
    apply andb_false_r.
  - intros i c Hi. rewrite list_lookup_fmap, Hi. simpl. eexists. split; [done|].
    case_bool_decide as Hid; simpl; [|by split_and!].
    case_bool_decide as Hin; simpl.
    + split_and!; try done. intros _ x. split; [by left|]. by intros [?| ->].
    + split_and!; try done.
      * intros _ x. rewrite elem_of_app, list_elem_of_singleton. tauto.
      * intros Hnd. apply NoDup_app. split_and!; [done| |apply NoDup_singleton].
        intros x Hx ->%list_elem_of_singleton. done.
Qed.

(** *** The member id *)

Lemma lowerChar_not_upper c : ¬ (65 ≤ nat_of_ascii (lowerChar c) ≤ 90).
Proof.
  unfold lowerChar. case_bool_decide as Hc; [|done].
  rewrite nat_ascii_embedding by lia. lia.
Qed.

Lemma lowerChar_whitespace c : isWhitespace (lowerChar c) = isWhitespace c.
Proof.
  unfold lowerChar. case_bool_decide as Hc; [|done]. unfold isWhitespace.
  rewrite nat_ascii_embedding by lia.
  rewrite !bool_decide_eq_false_2 by lia. done.
Qed.

Lemma toLowerCase_plain s :
  Forall plain (String.list_ascii_of_string s) → toLowerCase s = s.
Proof.
  induction s as [|c s IH]; [done|]. simpl. intros [[_ Hc] Hs]%Forall_cons.
  rewrite IH by done. f_equal. unfold lowerChar. by rewrite bool_decide_eq_false_2.
Qed.

Lemma replaceRuns_plain b s :
  Forall plain (String.list_ascii_of_string s) → replaceRuns b s = s.
Proof.
  revert b. induction s as [|c s IH]; intros b; [done|]. simpl.
  intros [[Hc _] Hs]%Forall_cons. rewrite Hc. by rewrite IH.
Qed.

Lemma replaceRuns_is_plain b s :
  Forall (λ c, ¬ (65 ≤ nat_of_ascii c ≤ 90)) (String.list_ascii_of_string s) →
  Forall plain (String.list_ascii_of_string (replaceRuns b s)).
Proof.
  revert b. induction s as [|c s IH]; intros b; [by constructor|]. simpl.
  intros [Hc Hs]%Forall_cons. destruct (isWhitespace c) eqn:Hw.
  - destruct b; [by apply IH|]. simpl. constructor; [|by apply IH].
    split; [done|]. vm_compute. lia.
  - simpl. constructor; [done|by apply IH].
Qed.

Lemma toLowerCase_no_upper s :
  Forall (λ c, ¬ (65 ≤ nat_of_ascii c ≤ 90)) (String.list_ascii_of_string (toLowerCase s)).
Proof.
  induction s as [|c s IH]; [by constructor|]. simpl. constructor; [|done].
  apply lowerChar_not_upper.
Qed.

(** X28.  On a name of ASCII characters the derived member id holds no
    whitespace and no capital letter, and deriving an id from it again
    gives the same id. *)
Theorem member_id_normal_form (name : string) :
  ascii_only name →
  Forall (λ c, isWhitespace c = false ∧ ¬ (65 ≤ nat_of_ascii c ≤ 90))
    (String.list_ascii_of_string (memberIdOf name)) ∧
  memberIdOf (memberIdOf name) = memberIdOf name.
Proof.
  intros _.
  assert (Hp : Forall plain (String.list_ascii_of_string (memberIdOf name))).
  { apply replaceRuns_is_plain, toLowerCase_no_upper. }
  split; [exact Hp|]. unfold memberIdOf at 1.
  by rewrite toLowerCase_plain, replaceRuns_plain.
Qed.

Lemma replaceRuns_underscore s :
  Exists (λ c, isWhitespace c = true) (String.list_ascii_of_string s) →
  "_"%char ∈ String.list_ascii_of_string (replaceRuns false s).
Proof.
  induction s as [|c s IH]; simpl; [by intros ?%Exists_nil|].
  intros [Hc|Hs]%Exists_cons.
  - rewrite Hc. simpl. by left.
  - destruct (isWhitespace c); simpl; [by left|]. right. by apply IH.
Qed.

Lemma toLowerCase_whitespace s :
  Exists (λ c, isWhitespace c = true) (String.list_ascii_of_string s) →
  Exists (λ c, isWhitespace c = true) (String.list_ascii_of_string (toLowerCase s)).
Proof.
  induction s as [|c s IH]; simpl; [done|].
  intros [Hc|Hs]%Exists_cons.
  - apply Exists_cons. left. by rewrite lowerChar_whitespace.
  - apply Exists_cons. right. by apply IH.
Qed.

Lemma keepLowerAlnum_chars s c :
  c ∈ String.list_ascii_of_string (keepLowerAlnum s) → isLowerAlnum c = true.
Proof.
  induction s as [|x s IH]; simpl; [by intros ?%elem_of_nil|].
  destruct (isLowerAlnum x) eqn:Hx; [|done]. simpl.
  intros [->|?]%elem_of_cons; [done|by apply IH].
Qed.

(** X29.  On ASCII input, the member id derived from a name with whitespace in
    it is no user id that the login screen can derive, whatever is typed
    there: the member id holds an underscore and a user id never does.  A
    member added under such a name therefore matches no logged-in user. *)
Theorem spaced_member_matches_no_login (name identifier : string) :
  ascii_only name → ascii_only identifier →
  Exists (λ c, isWhitespace c = true) (String.list_ascii_of_string name) →
  "_"%char ∈ String.list_ascii_of_string (memberIdOf name) ∧
  ("_"%char ∉ String.list_ascii_of_string (loginIdOf identifier)) ∧
  memberIdOf name ≠ loginIdOf identifier.
Proof.
  intros _ _ Hws.
  assert (H1 : "_"%char ∈ String.list_ascii_of_string (memberIdOf name)).
  { by apply replaceRuns_underscore, toLowerCase_whitespace. }
  assert (H2 : "_"%char ∉ String.list_ascii_of_string (loginIdOf identifier)).
  { intros Hin%keepLowerAlnum_chars. by vm_compute in Hin. }
  split_and!; [done|done|]. intros Heq. apply H2. by rewrite <- Heq.
Qed.

Example member_id_of_display_name :
  memberIdOf "Anna Musterfrau" = "anna_musterfrau"%string ∧
  loginIdOf "Anna Musterfrau" = "annamusterfrau"%string.
Proof. split; reflexivity. Qed.

(** ** The theorems above at concrete stores *)

Lemma reimport_own_export_witness :
  ∃ data, exportFullProfile MoreSamples.store_full = Some data ∧
          processProfileFile data true MoreSamples.store_full
          = (MoreSamples.store_full, ProfileSynced).
Proof.
  eexists. split; [reflexivity|].
  apply reimport_own_export; [reflexivity|by_evaluation].
Defined.

Lemma restore_round_trip_witness :
  ∃ data, exportFullProfile MoreSamples.store_full = Some data ∧
          decks (processProfileFile data true emptyStore).1
          = decks MoreSamples.store_full.
Proof.
  eexists. split; [reflexivity|].
  destruct (restore_round_trip MoreSamples.store_full _ eq_refl)
    as (_ & _ & _ & Hd & _); [by_evaluation..|].
  rewrite Hd. vm_compute. reflexivity.
Defined.

Lemma shared_course_reaches_importer_witness :
  Samples.deck_mine
    ∈ decks (processProfileFile
               (handleExportCourse Samples.course_local MoreSamples.store_full) true
               MoreSamples.store_ben).1 ∧
  Samples.deck_mine
    ∉ userDecks (processProfileFile
                   (handleExportCourse Samples.course_local MoreSamples.store_full) true
                   MoreSamples.store_ben).1.
Proof.
  destruct (shared_course_reaches_importer MoreSamples.store_full MoreSamples.store_ben
              Samples.course_local MoreSamples.user_ben eq_refl) as (_ & _ & _ & H).
  apply H.
  - by_evaluation.
  - simpl. left.
  - by_evaluation.
  - by_evaluation.
  - discriminate.
Defined.


Lemma created_deck_is_visible_witness :
  ∃ d, d ∈ userDecks (handleCreateDeck MoreSamples.deck_two "h9" 9 Samples.store_anna) ∧
       d_id d = "d3"%string.
Proof.
  destruct (created_deck_is_visible MoreSamples.deck_two "h9" 9 Samples.store_anna
              Samples.user_anna eq_refl) as (d & e & _ & Hin & Hid & _).
  exists d. split; [exact Hin|exact Hid].
Defined.

Lemma imported_deck_is_visible_witness :
  (handleImportDeck Samples.deck_theirs None "fresh" "h9" 9 Samples.store_anna).2
  = DeckImported.
Proof.
  apply (imported_deck_is_visible Samples.deck_theirs None "fresh" "h9" 9
           Samples.store_anna Samples.user_anna eq_refl); discriminate.
Defined.


Lemma update_card_effect_witness :
  handleUpdateCard (MoreSamples.flash "zz" "nix") Samples.store_anna = Samples.store_anna.
Proof.
  apply (proj1 (proj2 (proj2 (update_card_effect (MoreSamples.flash "zz" "nix")
                                Samples.store_anna)))).
  apply Forall_forall. by_evaluation.
Defined.

Lemma delete_card_effect_witness :
  ∃ d', decks (handleDeleteCard "a" MoreSamples.store_full) !! 2 = Some d' ∧
        d_cards d' = [MoreSamples.flash "b" "due"].
Proof.
  destruct (proj1 (proj2 (delete_card_effect "a" MoreSamples.store_full))
              2 MoreSamples.deck_two eq_refl) as (d' & Hl & _ & _ & _ & _ & Hc).
  exists d'. split; [exact Hl|]. rewrite Hc. vm_compute. reflexivity.
Defined.

Lemma imported_copy_shares_cards_witness :
  ∃ d', decks (handleImportDeck MoreSamples.deck_two None "fresh" "h9" 9
                 MoreSamples.store_full).1
        = decks MoreSamples.store_full ++ [d'] ∧ d_id d' = "fresh"%string.
Proof.
  destruct (imported_copy_shares_cards MoreSamples.deck_two None "fresh" "h9" 9
              MoreSamples.store_full) as (d' & Hd & Hid & _).
  - by_evaluation.
  - discriminate.
  - discriminate.
  - discriminate.
  - exists d'. split; [exact Hd|exact Hid].
Defined.

Lemma add_deck_to_course_effect_witness :
  ∃ c', courses (handleAddDeckToCourse "c1" "d3" MoreSamples.store_full) !! 0 = Some c' ∧
        NoDup (c_deckIds c').
Proof.
  destruct (proj1 (proj2 (add_deck_to_course_effect "c1" "d3" MoreSamples.store_full))
              0 Samples.course_local eq_refl) as (c' & Hl & _ & _ & _ & _ & Hnd).
  exists c'. split; [exact Hl|]. apply Hnd. by_evaluation.
Defined.

Lemma remove_deck_from_course_effect_witness :
  handleRemoveDeckFromCourse "c1" "d3"
    (handleAddDeckToCourse "c1" "d3" MoreSamples.store_full) = MoreSamples.store_full.
Proof.
  apply (proj2 (proj2 (remove_deck_from_course_effect "c1" "d3" MoreSamples.store_full))).
  apply (proj1 (Forall_forall
                  (λ c, c_id c = "c1"%string → "d3"%string ∉ c_deckIds c) _)).
  by_evaluation.
Defined.

Lemma add_active_deck_effect_witness :
  handleAddToCourse "c1" MoreSamples.store_full
  = handleAddDeckToCourse "c1" "d3" MoreSamples.store_full ∧
  handleAddToFolder "f1" Samples.store_anna = Samples.store_anna.
Proof.
  split.
  - apply (proj2 (add_active_deck_effect "c1" MoreSamples.store_full) "d3"%string);
      [reflexivity|discriminate].
  - apply (proj1 (add_active_deck_effect "f1" Samples.store_anna)). by left.
Defined.

Lemma delete_course_or_folder_effect_witness :
  handleDeleteCourse "c1" false MoreSamples.nav_full = MoreSamples.nav_full ∧
  view (nav_app (handleDeleteCourse "c1" true MoreSamples.nav_full)) = "dashboard"%string.
Proof.
  split.
  - apply (proj1 (delete_course_or_folder_effect "c1" false MoreSamples.nav_full)).
    reflexivity.
  - apply (proj1 (proj2 (delete_course_or_folder_effect "c1" true MoreSamples.nav_full)));
      reflexivity.
Defined.

Lemma deck_edits_keep_references_witness :
  references_resolve (handleDeleteDeck "d1" MoreSamples.store_full).
Proof.
  enough (Hres : references_resolve MoreSamples.store_full)
    by exact (proj1 (deck_edits_keep_references MoreSamples.store_full Hres) "d1"%string).
  split.
  - apply (proj1 (Forall_forall
             (λ c, ∀ i, i ∈ c_deckIds c → i ∈ d_id <$> decks MoreSamples.store_full) _)).
    apply (Forall_impl (λ c, Forall (λ i, i ∈ d_id <$> decks MoreSamples.store_full)
                               (c_deckIds c))).
    + by_evaluation.
    + intros c Hc. exact (proj1 (Forall_forall _ _) Hc).
  - apply (proj1 (Forall_forall
             (λ f, ∀ i, i ∈ f_deckIds f → i ∈ d_id <$> decks MoreSamples.store_full) _)).
    apply (Forall_impl (λ f, Forall (λ i, i ∈ d_id <$> decks MoreSamples.store_full)
                               (f_deckIds f))).
    + by_evaluation.
    + intros f Hf. exact (proj1 (Forall_forall _ _) Hf).
Defined.

Lemma rename_deck_effect_witness :
  handleRenameDeck "zz" "New" Samples.store_anna = Samples.store_anna.
Proof.
  apply (proj1 (proj2 (proj2 (rename_deck_effect "zz" "New" Samples.store_anna)))).
  by_evaluation.
Defined.

Lemma add_member_effect_witness :
  ∃ c', courses (handleAddMemberToCourse "c1" "Ben  Nevis" Samples.store_anna) !! 0
        = Some c' ∧
        ∀ x, x ∈ c_memberIds c' ↔ x ∈ [] ∨ x = "ben_nevis"%string.
Proof.
  assert (Hascii : ascii_only "Ben  Nevis") by by_evaluation.
  destruct (proj1 (proj2 (add_member_effect "c1" "Ben  Nevis" Samples.store_anna Hascii))
              0 Samples.course_local eq_refl) as (c' & Hl & _ & _ & _ & _ & Hm & _).
  exists c'. split; [exact Hl|]. apply Hm. reflexivity.
Defined.

Lemma member_id_normal_form_witness :
  memberIdOf (memberIdOf "Anna  Maria Musterfrau") = memberIdOf "Anna  Maria Musterfrau".
Proof.
  apply (member_id_normal_form "Anna  Maria Musterfrau"). by_evaluation.
Defined.

Lemma spaced_member_matches_no_login_witness :
  memberIdOf "Anna Musterfrau" ≠ loginIdOf "Anna Musterfrau".
Proof.
  apply (spaced_member_matches_no_login "Anna Musterfrau" "Anna Musterfrau");
    by_evaluation.
Defined.

End StoreOpsFacts.
